(** * Schema comparison across JSON corpora: a verified model

    Shallow embedding of [scripts/compare_schemas.py]: the JSON type
    tagger [_json_type], the path walker [walk_json], the per-file
    analysis [analyze_files], the corpus merge [merge_schemas] and the
    summary [summarize_schema].

    Python values are modelled as follows.
    - a parsed JSON document is a [JsonValue]; [int] and [float] stay
      distinct constructors, as [json.loads] produces them;
    - a [dict] is an insertion-ordered association list ([dict V]);
    - a [set] of strings is a [gset string]; [sorted] turns it into the
      list of its elements in increasing (code point) order;
    - a [pathlib.Path] is identified with its string form, so that
      [Path(str(p)) = p] and two paths are equal when their strings are
      (POSIX paths);
    - the warning printed for a file that fails to parse is not part of
      the model. *)

From stdpp Require Import gmap strings list sorting.
From Stdlib Require Import Floats.SpecFloat Strings.Ascii.

Local Open Scope Z_scope.
#[local] Set Warnings "-clear-no-such-hyp".

(** ** JSON values and their Python run-time types *)

#[local] Unset Elimination Schemes.
Inductive JsonValue : Type :=
| JNull
| JBool (b : bool)
| JInt (n : Z)
| JFloat (x : spec_float)
| JString (s : string)
| JArray (elems : list JsonValue)
| JObject (items : list (string * JsonValue)).
#[local] Set Elimination Schemes.

Inductive PyType : Type :=
| NoneType | PyBool | PyInt | PyFloat | PyStr | PyList | PyDict.

Global Instance PyType_eq_dec : EqDecision PyType.
Proof. solve_decision. Defined.

Definition type_of (v : JsonValue) : PyType :=
  match v with
  | JNull => NoneType
  | JBool _ => PyBool
  | JInt _ => PyInt
  | JFloat _ => PyFloat
  | JString _ => PyStr
  | JArray _ => PyList
  | JObject _ => PyDict
  end.

(** [type(v).__name__] *)
Definition type_name (t : PyType) : string :=
  match t with
  | NoneType => "NoneType"
  | PyBool => "bool"
  | PyInt => "int"
  | PyFloat => "float"
  | PyStr => "str"
  | PyList => "list"
  | PyDict => "dict"
  end.

(** In Python [bool] is a subclass of [int]: [isinstance(True, int)]
    holds.  That is the only subclass relation among the seven types. *)
Definition issubclass (t u : PyType) : bool :=
  match t, u with
  | PyBool, PyInt => true
  | _, _ => bool_decide (t = u)
  end.

Definition isinstance (v : JsonValue) (t : PyType) : bool :=
  issubclass (type_of v) t.

(** [v is None] *)
Definition is_None (v : JsonValue) : bool :=
  match v with JNull => true | _ => false end.

Definition _json_type (v : JsonValue) : string :=
  if is_None v then "null"
  else if isinstance v PyBool then "boolean"
  else if (isinstance v PyInt || isinstance v PyFloat)
          && negb (isinstance v PyBool) then "number"
  else if isinstance v PyStr then "string"
  else if isinstance v PyList then "array"
  else if isinstance v PyDict then "object"
  else type_name (type_of v).

(** ** String helpers: truthiness, [or], f-strings *)

(** A [str] is truthy when it is not empty. *)
Definition truthy (s : string) : bool :=
  match s with EmptyString => false | String _ _ => true end.

(** [a or b] on strings *)
Definition str_or (a b : string) : string := if truthy a then a else b.

(** [f"{base}.{k}" if base else k] *)
Definition child_path (base k : string) : string :=
  if truthy base then base +:+ "." +:+ k else k.

(** [f"{base}[]" if base else "[]"] *)
Definition child_base (base : string) : string :=
  if truthy base then base +:+ "[]" else "[]".

(** ** The path walker *)

(** The loop [for i, el in enumerate(obj[:5])] visits the elements of the
    slice in order; [sample n f l] runs [f] on the first [n] elements of
    [l] and concatenates what it returns ([pairs.extend]). *)
Section sample.
Context {A B : Type} (f : A → list B).
Fixpoint sample (n : nat) (l : list A) : list B :=
  match n, l with
  | S n', el :: rest => f el ++ sample n' rest
  | _, _ => []
  end.
End sample.

Fixpoint walk_json (obj : JsonValue) (base : string) : list (string * string) :=
  let t := _json_type obj in
  let pairs := [(str_or base "$", t)] in
  match obj with
  | JObject items =>
      pairs ++ flat_map (λ kv, walk_json kv.2 (child_path base kv.1)) items
  | JArray elems =>
      match elems with
      | _ :: _ => pairs ++ sample (λ el, walk_json el (child_base base)) 5 elems
      | [] => pairs
      end
  | _ => pairs
  end.

(** The same recursion with an explicit budget of nested calls: every
    call of [walk_json] takes one unit, and a call made with no budget
    left does not return.  This is the recursion as the interpreter runs
    it, one frame per level of nesting.  [each_fuel f l] is a loop over
    [l] that extends the result with what each [f el] returns, and does
    not return when one of the calls does not. *)
Section each_fuel.
Context {A B : Type} (f : A → option (list B)).
Fixpoint each_fuel (l : list A) : option (list B) :=
  match l with
  | [] => Some []
  | el :: rest => r ← f el; rs ← each_fuel rest; Some (r ++ rs)
  end.
End each_fuel.

Fixpoint walk_json_fuel (fuel : nat) (obj : JsonValue) (base : string)
    : option (list (string * string)) :=
  match fuel with
  | O => None
  | S fuel' =>
      let t := _json_type obj in
      let pairs := [(str_or base "$", t)] in
      match obj with
      | JObject items =>
          rs ← each_fuel
                 (λ kv, walk_json_fuel fuel' kv.2 (child_path base kv.1)) items;
          Some (pairs ++ rs)
      | JArray elems =>
          match elems with
          | _ :: _ =>
              rs ← each_fuel
                     (λ el, walk_json_fuel fuel' el (child_base base))
                     (take 5 elems);
              Some (pairs ++ rs)
          | [] => Some pairs
          end
      | _ => Some pairs
      end
  end.

(** The values [walk_json] is called on from within a call on [parent]:
    every value of a mapping, and the elements of the slice [obj[:5]]. *)
Inductive walk_calls : JsonValue → JsonValue → Prop :=
| calls_item k v items :
    (k, v) ∈ items → walk_calls v (JObject items)
| calls_elem el elems :
    el ∈ take 5 elems → walk_calls el (JArray elems).

(** Nesting depth and number of nodes of a value. *)
Fixpoint depth (v : JsonValue) : nat :=
  match v with
  | JArray elems => S (foldr (λ el d, depth el `max` d) O elems)
  | JObject items => S (foldr (λ kv d, depth kv.2 `max` d) O items)
  | _ => O
  end%nat.

Fixpoint nodes (v : JsonValue) : nat :=
  match v with
  | JArray elems => S (foldr (λ el n, nodes el + n) O elems)
  | JObject items => S (foldr (λ kv n, nodes kv.2 + n) O items)
  | _ => 1
  end%nat.

(** ** Dictionaries

    A [dict] keeps its keys in insertion order.  [dict_get] is [d.get(k)],
    [dict_setdefault] is [d.setdefault(k, dflt)] seen as an update of [d],
    and [dict_alter] is a mutation of the object stored under [k]. *)
Abbreviation dict V := (list (string * V)) (only parsing).

Section dict.
Context {V : Type}.

Fixpoint dict_get (k : string) (d : dict V) : option V :=
  match d with
  | [] => None
  | (k', v) :: d' => if decide (k' = k) then Some v else dict_get k d'
  end.

Definition dict_setdefault (k : string) (dflt : V) (d : dict V) : dict V :=
  match dict_get k d with
  | Some _ => d
  | None => d ++ [(k, dflt)]
  end.

Definition dict_alter (f : V → V) (k : string) (d : dict V) : dict V :=
  (λ kv, if decide (kv.1 = k) then (kv.1, f kv.2) else kv) <$> d.
End dict.

(** ** Per-file analysis *)

Record FileSchema : Type := mkFileSchema {
  path : string;
  path_types : dict (gset string);
}.

(** [d[path].add(typ)] on a [defaultdict(set)] *)
Definition add_type (d : dict (gset string)) (pt : string * string)
    : dict (gset string) :=
  dict_alter (λ s, s ∪ {[pt.2]}) pt.1 (dict_setdefault pt.1 ∅ d).

Definition collect_types (pairs : list (string * string)) : dict (gset string) :=
  foldl add_type [] pairs.

Section analysis.
(** The file system and the JSON parser are outside the program.
    [load p] is the outcome of the two statements under [try], reading
    the text of file [p] and parsing it with [json.loads]: the parsed
    document, or [None] when either of them raises. *)
Variable load : string → option JsonValue.

Definition invalid_schema (p : string) : FileSchema :=
  {| path := p; path_types := [("$", {["invalid_json"]})] |}.

Fixpoint analyze_files (files : list string) : list FileSchema :=
  match files with
  | [] => []
  | p :: rest =>
      match load p with
      | None => invalid_schema p :: analyze_files rest
      | Some obj =>
          let pairs := walk_json obj "$" in
          {| path := p; path_types := collect_types pairs |}
            :: analyze_files rest
      end
  end.
End analysis.

(** ** Merging the per-file schemas *)

(** A record of the merged schema while it is being built (two sets) and
    once finalized (three sorted lists). *)
Record RecAcc : Type := mkRecAcc {
  acc_types : gset string;
  acc_files : gset string;
}.

Record PathRecord : Type := mkPathRecord {
  types : list string;
  files : list string;
  missing_in_files : list string;
}.

(** [sorted(s)] for a set of strings *)
Definition sorted (s : gset string) : list string :=
  merge_sort String.le (elements s).

(** One round of the inner loop of [merge_schemas]:
    [rec = result.setdefault(path, ...)], then the two updates of [rec]. *)
Definition merge_entry (file : string) (result : dict RecAcc)
    (entry : string * gset string) : dict RecAcc :=
  dict_alter
    (λ rec, {| acc_types := acc_types rec ∪ entry.2;
               acc_files := acc_files rec ∪ {[file]} |})
    entry.1
    (dict_setdefault entry.1 {| acc_types := ∅; acc_files := ∅ |} result).

Definition merge_file (result : dict RecAcc) (s : FileSchema) : dict RecAcc :=
  foldl (merge_entry (path s)) result (path_types s).

Definition finalize (all_files : gset string) (rec : RecAcc) : PathRecord :=
  let types := sorted (acc_types rec) in
  let files := sorted (acc_files rec) in
  let missing := sorted (all_files ∖ list_to_set files) in
  {| types := types; files := files; missing_in_files := missing |}.

Definition merge_schemas (schemas : list FileSchema) : dict PathRecord :=
  let all_files : gset string := list_to_set (path <$> schemas) in
  let result := foldl merge_file [] schemas in
  (λ kv, (kv.1, finalize all_files kv.2)) <$> result.

(** ** Summary *)

Record Summary : Type := mkSummary {
  total_paths : nat;
  paths_with_type_conflict_count : nat;
  paths_with_type_conflict : list string;
  paths_missing_count : nat;
  paths_missing_examples : list string;
  unique_paths_count : nat;
  unique_paths_examples : list string;
}.

(** The three comprehensions of [summarize_schema]. *)
Definition type_conflict_paths (merged : dict PathRecord) : list string :=
  (filter (λ kv, (1 < length (types kv.2))%nat) merged).*1.

Definition missing_paths (merged : dict PathRecord) : list string :=
  (filter (λ kv, missing_in_files kv.2 ≠ []) merged).*1.

Definition unique_paths (merged : dict PathRecord) : list string :=
  (filter (λ kv, length (files kv.2) = 1%nat) merged).*1.

Definition summarize_schema (merged : dict PathRecord) : Summary :=
  {| total_paths := length merged;
     paths_with_type_conflict_count := length (type_conflict_paths merged);
     paths_with_type_conflict := take 20 (type_conflict_paths merged);
     paths_missing_count := length (missing_paths merged);
     paths_missing_examples := take 20 (missing_paths merged);
     unique_paths_count := length (unique_paths merged);
     unique_paths_examples := take 20 (unique_paths merged) |}.

(** ** Occurrences of a path in a corpus

    For a fixed JSON path, an _occurrence_ is a pair of a file and a type
    set under which that file lists the path.  [describes o occ] says
    that [o], the record found (or not) under the path, is exactly the
    union of the occurrences [occ]. *)

Definition describes (o : option RecAcc) (occ : string → gset string → Prop)
    : Prop :=
  match o with
  | None => ∀ f ts, ¬ occ f ts
  | Some r =>
      (∃ f ts, occ f ts)
      ∧ (∀ x, x ∈ acc_types r ↔ ∃ f ts, occ f ts ∧ x ∈ ts)
      ∧ (∀ f, f ∈ acc_files r ↔ ∃ ts, occ f ts)
  end.

Definition occurs (schemas : list FileSchema) (k : string)
    (f : string) (ts : gset string) : Prop :=
  ∃ s, s ∈ schemas ∧ path s = f ∧ (k, ts) ∈ path_types s.

(** ** A small corpus used in the examples below

    [A.json] holds [{"x": {"y": "s"}}], [B.json] holds [{"x": {"y": 1}}],
    [C.json] holds [{"z": [1, "q"]}], and [bad.json] holds text that is
    not JSON.  No other file can be read. *)
Definition demo_load (p : string) : option JsonValue :=
  if decide (p = "A.json")
  then Some (JObject [("x", JObject [("y", JString "s")])])
  else if decide (p = "B.json")
  then Some (JObject [("x", JObject [("y", JInt 1)])])
  else if decide (p = "C.json")
  then Some (JObject [("z", JArray [JInt 1; JString "q"])])
  else None.

Definition demo_files : list string :=
  ["A.json"; "B.json"; "C.json"; "bad.json"].

Definition demo_schemas : list FileSchema :=
  analyze_files demo_load demo_files.


(** The schema that one round of the loop of [analyze_files] appends to
    [out] for file [p]. *)
Definition file_schema (load : string → option JsonValue) (p : string)
    : FileSchema :=
  match load p with
  | None => invalid_schema p
  | Some obj => {| path := p; path_types := collect_types (walk_json obj "$") |}
  end.

(** Every type set listed by a per-file schema has an element. *)
Definition nonempty_types (s : FileSchema) : Prop :=
  ∀ k ts, (k, ts) ∈ path_types s → ts ≠ ∅.


(** ** Example documents *)

(** [{"a": true, "b": 1, "c": 1.5, "d": null, "e": "x", "f": [], "g": {}}];
    the float [1.5] is [3 * 2^(-1)]. *)
Definition doc_tags : JsonValue :=
  JObject [("a", JBool true); ("b", JInt 1);
           ("c", JFloat (S754_finite false 3 (-1))); ("d", JNull);
           ("e", JString "x"); ("f", JArray []); ("g", JObject [])].

(** [{"items": elems}] *)
Definition doc_items (elems : list JsonValue) : JsonValue :=
  JObject [("items", JArray elems)].

Definition one_to_five : list JsonValue := JInt <$> [1; 2; 3; 4; 5].
Definition six_to_ten : list JsonValue := JInt <$> [6; 7; 8; 9; 10].

(** Three per-file schemas, walked from [{"x": {"y": "s"}}],
    [{"x": {"y": 1}}] and [{"z": true}] with the default starting path. *)
Definition schema_A : FileSchema :=
  {| path := "A.json";
     path_types :=
       collect_types
         (walk_json (JObject [("x", JObject [("y", JString "s")])]) EmptyString) |}.
Definition schema_B : FileSchema :=
  {| path := "B.json";
     path_types :=
       collect_types
         (walk_json (JObject [("x", JObject [("y", JInt 1)])]) EmptyString) |}.
Definition schema_C : FileSchema :=
  {| path := "C.json";
     path_types :=
       collect_types (walk_json (JObject [("z", JBool true)]) EmptyString) |}.


(** ** Notions used to state further properties of the walker *)

(** The six tags [_json_type] gives to JSON values. *)
Definition json_tags : list string :=
  ["null"; "boolean"; "number"; "string"; "array"; "object"].

(** No sequence anywhere in the value has more than five elements. *)
Fixpoint small_arrays (v : JsonValue) : bool :=
  match v with
  | JArray elems =>
      bool_decide (length elems ≤ 5)%nat && forallb small_arrays elems
  | JObject items => forallb (λ kv, small_arrays kv.2) items
  | _ => true
  end.


(** ** The report written for a folder ([write_reports], [process_folder])

    [write_reports] builds the dictionary [rep] and writes it as JSON;
    the model is the value written.  The Markdown summary, built from
    the same [summary], and the file system are not modelled. *)
Record Report : Type := mkReport {
  folder : string;
  files_count : nat;
  report_files : list string;
  merged_schema : dict PathRecord;
  summary : Summary;
}.

Definition write_reports (folder_name : string) (schemas : list FileSchema)
    (merged : dict PathRecord) : Report :=
  {| folder := folder_name;
     files_count := length schemas;
     report_files := path <$> schemas;
     merged_schema := merged;
     summary := summarize_schema merged |}.

(** [process_folder] once [find_json_files] has returned [files]. *)
Definition process_folder (load : string → option JsonValue)
    (folder_name : string) (files : list string) : Report :=
  let schemas := analyze_files load files in
  let merged := merge_schemas schemas in
  write_reports folder_name schemas merged.

(** ** Unique paths of a report ([extract_unique_paths.py]) *)

(** [s.split(".")] *)
Fixpoint split_dot (s : string) : list string :=
  match s with
  | EmptyString => [EmptyString]
  | String c s' =>
      if Ascii.eqb c "."%char then EmptyString :: split_dot s'
      else match split_dot s' with
           | part :: parts => String c part :: parts
           | [] => [String c EmptyString]
           end
  end.

(** [s.replace("[]", "")]: occurrences are removed from left to right,
    without overlap. *)
Fixpoint remove_brackets (s : string) : string :=
  match s with
  | EmptyString => EmptyString
  | String c s' =>
      match s' with
      | String c' s'' =>
          if Ascii.eqb c "["%char && Ascii.eqb c' "]"%char then remove_brackets s''
          else String c (remove_brackets s')
      | EmptyString => String c EmptyString
      end
  end.

Section extract_unique_paths.
(** [str.strip()] removes the white space of Unicode at both ends; it is
    a parameter of the model.  So is [extract_snippet], which reads the
    file [file] and looks for [key] in its text. *)
Variable strip : string → string.
Variable extract_snippet : string → string → option string.

Definition get_key_name_from_path (path : string) : string :=
  let parts := split_dot (strip path) in
  match last parts with
  | None => path
  | Some last => remove_brackets last
  end.

Record UniqueEntry : Type := mkUniqueEntry {
  entry_path : string;
  entry_types : list string;
  entry_file : string;
  entry_snippet : option string;
}.

(** The loop of [process_report] over the [merged_schema] of a report:
    [len(files) == 1], then [files[0]]. *)
Definition unique_entries (snippets : bool) (merged : dict PathRecord)
    : list UniqueEntry :=
  flat_map
    (λ kv,
       match files kv.2 with
       | [file_containing] =>
           let key := get_key_name_from_path kv.1 in
           let snippet :=
             if snippets then extract_snippet file_containing key else None in
           [{| entry_path := kv.1; entry_types := types kv.2;
               entry_file := file_containing; entry_snippet := snippet |}]
       | _ => []
       end)
    merged.
End extract_unique_paths.


(** ** Finding the files of a folder ([find_json_files])

    A function that raises returns [None]. *)

(** [s.endswith(suffix)] *)
Definition endswith (s suffix : string) : bool :=
  bool_decide (String.length suffix ≤ String.length s)%nat
  && String.eqb
       (String.substring (String.length s - String.length suffix)
                         (String.length suffix) s)
       suffix.

(** The values of [for e in v]: the elements of a list, the keys of a
    dictionary, the characters of a string; other values are not
    iterable.  (The characters are listed byte by byte; the program only
    depends on whether there is one.) *)
Definition py_iter (v : JsonValue) : option (list JsonValue) :=
  match v with
  | JArray elems => Some elems
  | JObject items => Some (JString <$> items.*1)
  | JString s =>
      Some ((λ c, JString (String c EmptyString))
              <$> String.list_ascii_of_string s)
  | _ => None
  end.

Section find_json_files.
(** Outside the program: [Path(s)] as a canonical string ([to_path]),
    [p.exists()] ([None] when it raises), [os.walk(folder)] as the list of
    its (dirpath, filenames) pairs, [Path(dirpath) / fname], [s.lower()],
    [sorted(set(files))] on paths, [p.name] and [fnmatch.fnmatch]. *)
Variable to_path : string → string.
Variable exists_ : string → option bool.
Variable os_walk : string → list (string * list string).
Variable joinpath : string → string → string.
Variable lower : string → string.
Variable sorted_paths : list string → list string.
Variable name : string → string.
Variable fnmatch : string → string → bool.

(** [index.get("entries", [])]; only a dictionary has [get]. *)
Definition index_entries (index : JsonValue) : option JsonValue :=
  match index with
  | JObject items => Some (default (JArray []) (dict_get "entries" items))
  | _ => None
  end.

(** [Path(e.get("file"))]: [e] must be a dictionary and the value a
    string; [Path(None)] raises. *)
Definition indexed_path (e : JsonValue) : option string :=
  match e with
  | JObject items =>
      match dict_get "file" items with
      | Some (JString s) => Some (to_path s)
      | _ => None
      end
  | _ => None
  end.

(** One round of the loop over the entries of the index. *)
Definition indexed_file (e : JsonValue) : option (list string) :=
  p ← indexed_path e;
  b ← exists_ p;
  Some (if b : bool then [p] else []).

(** The files collected before sorting. *)
Definition candidate_files (folder : string) (index : JsonValue)
    : option (list string) :=
  match index with
  | JNull =>
      Some (flat_map
              (λ dir,
                 joinpath dir.1
                   <$> filter (λ fname, endswith (lower fname) ".json" = true)
                              dir.2)
              (os_walk folder))
  | _ =>
      entries ← index_entries index;
      es ← py_iter entries;
      found ← mapM indexed_file es;
      Some (concat found)
  end.

(** The loop over [ignore_patterns], with its [break]. *)
Definition ignored (ignore_patterns : list string) (p : string) : bool :=
  existsb (λ pat, fnmatch (name p) pat) ignore_patterns.

Definition find_json_files (folder : string) (index : JsonValue)
    (ignore_patterns : option (list string)) : option (list string) :=
  files ← candidate_files folder index;
  let files := sorted_paths files in
  match ignore_patterns with
  | Some (pat :: pats) =>
      Some (filter (λ p, ignored (pat :: pats) p = false) files)
  | _ => Some files
  end.
End find_json_files.


(** A small file system for the examples: the folder holds three files
    and a sub-folder with one; names are matched by suffix. *)
Definition demo_walk (folder : string) : list (string * list string) :=
  [(folder, ["a.json"; "a_metadata.json"; "notes.txt"]);
   (folder +:+ "/sub", ["b.json"])].

Definition demo_joinpath (dirpath fname : string) : string :=
  dirpath +:+ "/" +:+ fname.

Definition demo_sorted_paths (l : list string) : list string :=
  sorted (list_to_set l).

Definition demo_find (index : JsonValue) (ignore_patterns : option (list string))
    : option (list string) :=
  find_json_files id (λ _, Some true) demo_walk demo_joinpath id
    demo_sorted_paths id endswith "full" index ignore_patterns.


(** * Properties *)

(** ** Induction over JSON values *)

Section JsonValue_nested_ind.
Variable P : JsonValue → Prop.
Hypothesis HNull : P JNull.
Hypothesis HBool : ∀ b, P (JBool b).
Hypothesis HInt : ∀ n, P (JInt n).
Hypothesis HFloat : ∀ x, P (JFloat x).
Hypothesis HString : ∀ s, P (JString s).
Hypothesis HArray : ∀ elems, Forall P elems → P (JArray elems).
Hypothesis HObject : ∀ items, Forall (λ kv, P kv.2) items → P (JObject items).

Lemma JsonValue_nested_ind : ∀ v, P v.
Proof using Type*.
  fix IH 1. intros [ | b | n | x | s | elems | items ].
  - apply HNull.
  - apply HBool.
  - apply HInt.
  - apply HFloat.
  - apply HString.
  - apply HArray. induction elems as [|el elems IHl]; constructor.
    + apply IH.
    + apply IHl.
  - apply HObject. induction items as [|[k v] items IHl]; constructor.
    + apply IH.
    + apply IHl.
Qed.
End JsonValue_nested_ind.

(** ** The type tagger *)

Lemma _json_type_cases v :
  _json_type v =
    match v with
    | JNull => "null"
    | JBool _ => "boolean"
    | JInt _ | JFloat _ => "number"
    | JString _ => "string"
    | JArray _ => "array"
    | JObject _ => "object"
    end.
Proof. by destruct v. Qed.

(** ** The walker, equation by equation *)

Lemma truthy_spec s : truthy s = bool_decide (s ≠ EmptyString).
Proof. by destruct s. Qed.

Lemma child_base_app base : child_base base = base +:+ "[]".
Proof. by destruct base. Qed.

Lemma sample_take {A B} (f : A → list B) n l :
  sample f n l = flat_map f (take n l).
Proof.
  revert l; induction n as [|n IH]; intros [|x l]; simpl; auto.
  by rewrite IH.
Qed.

Lemma walk_json_array elems base :
  walk_json (JArray elems) base =
    (str_or base "$", "array")
      :: flat_map (λ el, walk_json el (base +:+ "[]")) (take 5 elems).
Proof.
  rewrite <- child_base_app. destruct elems as [|el elems]; [done|].
  cbn [walk_json]. by rewrite sample_take.
Qed.

Lemma walk_json_object items base :
  walk_json (JObject items) base =
    (str_or base "$", "object")
      :: flat_map (λ kv, walk_json kv.2 (child_path base kv.1)) items.
Proof. done. Qed.

Lemma walk_json_head obj base :
  ∃ rest, walk_json obj base = (str_or base "$", _json_type obj) :: rest.
Proof. destruct obj as [ | | | | | [|??] | ]; cbn; eauto. Qed.

(** ** Termination of the walker *)

Lemma each_fuel_Some {A B} (f : A → option (list B)) (g : A → list B) l :
  Forall (λ x, f x = Some (g x)) l → each_fuel f l = Some (flat_map g l).
Proof.
  induction 1 as [|x l Hx _ IH]; [done|].
  cbn. rewrite Hx. cbn. by rewrite IH.
Qed.

Lemma depth_elem_lt el elems :
  el ∈ elems → (depth el < depth (JArray elems))%nat.
Proof.
  cbn. induction 1 as [el elems|el el' elems _ IH]; cbn; lia.
Qed.

Lemma depth_item_lt k v items :
  (k, v) ∈ items → (depth v < depth (JObject items))%nat.
Proof.
  cbn. remember (k, v) as kv eqn:E.
  induction 1 as [kv items|kv kv' items _ IH]; subst; cbn; [lia|].
  specialize (IH eq_refl). lia.
Qed.

Lemma walk_json_fuel_enough obj : ∀ base fuel,
  (depth obj < fuel)%nat → walk_json_fuel fuel obj base = Some (walk_json obj base).
Proof.
  induction obj as [ | b | n | x | s | elems IH | items IH ]
    using JsonValue_nested_ind; intros base [|fuel] Hfuel; try lia; try done.
  - rewrite walk_json_array, <- child_base_app.
    destruct elems as [|el elems]; [done|].
    cbn [walk_json_fuel].
    erewrite (each_fuel_Some _ (λ el, walk_json el (child_base base))); [done|].
    apply Forall_forall. intros y Hy.
    assert (y ∈ el :: elems) as Hin.
    { eapply (subseteq_take 5). exact Hy. }
    rewrite Forall_forall in IH. apply IH; [done|].
    apply depth_elem_lt in Hin. lia.
  - rewrite walk_json_object. cbn [walk_json_fuel].
    erewrite (each_fuel_Some _ (λ kv, walk_json kv.2 (child_path base kv.1)));
      [done|].
    apply Forall_forall. intros [k v] Hkv.
    rewrite Forall_forall in IH. apply (IH _ Hkv).
    apply depth_item_lt in Hkv. cbn [snd]. lia.
Qed.

Lemma walk_calls_wf : well_founded walk_calls.
Proof.
  intros v.
  induction v as [ | b | n | x | s | elems IH | items IH ]
    using JsonValue_nested_ind; constructor; intros y Hy; inversion Hy; subst.
  - rewrite Forall_forall in IH. apply IH. by eapply (subseteq_take 5).
  - rewrite Forall_forall in IH. by apply (IH (k, y)).
Qed.

Lemma length_flat_map_le {A B} (f : A → list B) (g : A → nat) l :
  Forall (λ x, (length (f x) ≤ g x)%nat) l →
  (length (flat_map f l) ≤ foldr (λ x n, g x + n) O l)%nat.
Proof.
  induction 1 as [|x l Hx _ IH]; cbn; [lia|].
  rewrite length_app. lia.
Qed.

Lemma foldr_nodes_take (n : nat) elems :
  (foldr (λ el m, nodes el + m) O (take n elems)
   ≤ foldr (λ el m, nodes el + m) O elems)%nat.
Proof.
  revert n; induction elems as [|el elems IH]; intros [|n]; cbn; try lia.
  specialize (IH n). lia.
Qed.

Lemma walk_json_length obj : ∀ base,
  (length (walk_json obj base) ≤ nodes obj)%nat.
Proof.
  induction obj as [ | b | n | x | s | elems IH | items IH ]
    using JsonValue_nested_ind; intros base; try (cbn; lia).
  - rewrite walk_json_array. cbn [length nodes].
    apply le_n_S. etrans; [|apply (foldr_nodes_take 5)].
    apply (length_flat_map_le _ nodes).
    apply Forall_forall. intros y Hy. rewrite Forall_forall in IH.
    apply IH. by eapply (subseteq_take 5).
  - rewrite walk_json_object. cbn [length nodes].
    apply le_n_S. apply (length_flat_map_le _ (λ kv, nodes kv.2)).
    eapply Forall_impl; [exact IH|]. intros kv Hkv. apply Hkv.
Qed.

(** ** Dictionaries as association lists *)

Section dict_facts.
Context {V : Type}.
Implicit Types (d : dict V) (k : string) (v : V).

Lemma dict_get_Some_elem k d v : dict_get k d = Some v → (k, v) ∈ d.
Proof.
  induction d as [|[k' v'] d IH]; cbn; [done|].
  case_decide; intros; simplify_eq; [left|right; auto].
Qed.

Lemma dict_get_None k d : dict_get k d = None ↔ k ∉ d.*1.
Proof.
  induction d as [|[k' v'] d IH]; cbn.
  - split; [intros _; apply not_elem_of_nil|done].
  - rewrite not_elem_of_cons. case_decide as Hk; subst.
    + split; [done|]. by intros [? _].
    + rewrite IH. split; [auto|]. by intros [_ ?].
Qed.

Lemma dict_get_is_Some k d : is_Some (dict_get k d) ↔ k ∈ d.*1.
Proof.
  rewrite <- not_eq_None_Some, dict_get_None.
  split; [apply dec_stable|auto].
Qed.

Lemma dict_get_NoDup k v d : NoDup d.*1 → (k, v) ∈ d → dict_get k d = Some v.
Proof.
  induction d as [|[k' v'] d IH]; cbn; intros Hnd Hin.
  - by apply elem_of_nil in Hin.
  - apply NoDup_cons in Hnd as [Hk' Hnd].
    apply elem_of_cons in Hin as [?|Hin]; simplify_eq.
    + by rewrite decide_True.
    + rewrite decide_False; [auto|]. intros ->. apply Hk'.
      apply list_elem_of_fmap. by exists (k, v).
Qed.

Lemma dict_get_app k d1 d2 :
  dict_get k (d1 ++ d2) =
    match dict_get k d1 with Some v => Some v | None => dict_get k d2 end.
Proof.
  induction d1 as [|[k' v'] d1 IH]; cbn; [done|]. by case_decide.
Qed.

Lemma dict_get_alter f k k' d :
  dict_get k' (dict_alter f k d) =
    if decide (k = k') then f <$> dict_get k' d else dict_get k' d.
Proof.
  unfold dict_alter. induction d as [|[k0 v0] d IH]; cbn.
  - by case_decide.
  - repeat (case_decide; simplify_eq/=); try done.
Qed.

Lemma dict_keys_alter f k d : (dict_alter f k d).*1 = d.*1.
Proof.
  unfold dict_alter. induction d as [|[k0 v0] d IH]; cbn; [done|].
  rewrite IH. by case_decide.
Qed.

Lemma dict_get_setdefault k k' dflt d :
  dict_get k' (dict_setdefault k dflt d) =
    match dict_get k' d with
    | Some v => Some v
    | None => if decide (k = k') then Some dflt else None
    end.
Proof.
  unfold dict_setdefault. destruct (dict_get k d) as [v|] eqn:Hk.
  - destruct (dict_get k' d) eqn:Hk'; [done|].
    case_decide; [congruence|done].
  - rewrite dict_get_app. cbn. by destruct (dict_get k' d).
Qed.

Lemma dict_keys_setdefault_NoDup k dflt d :
  NoDup d.*1 → NoDup (dict_setdefault k dflt d).*1.
Proof.
  unfold dict_setdefault. intros Hnd.
  destruct (dict_get k d) eqn:Hk; [done|].
  rewrite fmap_app. apply NoDup_app. split_and!; [done| |].
  - intros x Hx Hx'. apply list_elem_of_singleton in Hx' as ->.
    by apply dict_get_None in Hk.
  - apply NoDup_singleton.
Qed.

(** [d.setdefault(k, dflt)] followed by a mutation [f] of the value
    it returns. *)
Lemma dict_get_upsert f dflt k k' d :
  dict_get k' (dict_alter f k (dict_setdefault k dflt d)) =
    if decide (k = k') then Some (f (default dflt (dict_get k' d)))
    else dict_get k' d.
Proof.
  rewrite dict_get_alter, dict_get_setdefault.
  case_decide; by destruct (dict_get k' d).
Qed.

Lemma dict_keys_upsert_NoDup f dflt k d :
  NoDup d.*1 → NoDup (dict_alter f k (dict_setdefault k dflt d)).*1.
Proof. rewrite dict_keys_alter. apply dict_keys_setdefault_NoDup. Qed.

Lemma dict_get_map_values {W} (g : V → W) k d :
  dict_get k ((λ kv, (kv.1, g kv.2)) <$> d) = g <$> dict_get k d.
Proof.
  induction d as [|[k0 v0] d IH]; cbn; [done|]. by case_decide.
Qed.

Lemma dict_keys_map_values {W} (g : V → W) d :
  ((λ kv, (kv.1, g kv.2)) <$> d).*1 = d.*1.
Proof. rewrite <- list_fmap_compose. by apply list_fmap_ext. Qed.
End dict_facts.

(** ** Sorting a set *)

Lemma elem_of_sorted x s : x ∈ sorted s ↔ x ∈ s.
Proof. unfold sorted. by rewrite merge_sort_Permutation, elem_of_elements. Qed.

Lemma sorted_StronglySorted s : StronglySorted String.le (sorted s).
Proof. apply StronglySorted_merge_sort; apply _. Qed.

Lemma sorted_NoDup s : NoDup (sorted s).
Proof. unfold sorted. rewrite merge_sort_Permutation. apply NoDup_elements. Qed.

Lemma list_to_set_sorted s : list_to_set (sorted s) = s.
Proof. apply set_eq. intros x. by rewrite elem_of_list_to_set, elem_of_sorted. Qed.

Lemma sorted_nil s : sorted s = [] ↔ s = ∅.
Proof.
  split.
  - intros H. apply set_eq. intros x. rewrite <- elem_of_sorted, H.
    split; [by intros ?%elem_of_nil|by intros ?%not_elem_of_empty].
  - intros ->. done.
Qed.

(** ** What the merge loop accumulates *)

Lemma describes_ext o occ occ' :
  (∀ f ts, occ f ts ↔ occ' f ts) → describes o occ → describes o occ'.
Proof.
  intros Hiff. destruct o as [r|]; cbn.
  - intros (Hex & Hty & Hfi). split_and!.
    + destruct Hex as (f & ts & H). exists f, ts. by apply Hiff.
    + intros x. rewrite Hty. by setoid_rewrite Hiff.
    + intros f. rewrite Hfi. by setoid_rewrite Hiff.
  - intros H f ts ?%Hiff. by eapply H.
Qed.

Lemma describes_inj o o' occ : describes o occ → describes o' occ → o = o'.
Proof.
  destruct o as [[ty fi]|], o' as [[ty' fi']|]; cbn.
  - intros (_ & Hty & Hfi) (_ & Hty' & Hfi'). do 2 f_equal.
    + apply set_eq. intros x. by rewrite Hty, Hty'.
    + apply set_eq. intros f. by rewrite Hfi, Hfi'.
  - intros ((f & ts & H) & _) Hno. by destruct (Hno f ts).
  - intros Hno ((f & ts & H) & _). by destruct (Hno f ts).
  - done.
Qed.

Lemma describes_merge_entry k file result e occ :
  describes (dict_get k result) occ →
  describes (dict_get k (merge_entry file result e))
            (λ f ts, occ f ts ∨ (f = file ∧ (k, ts) = e)).
Proof.
  intros Hd. unfold merge_entry. rewrite dict_get_upsert.
  destruct e as [k' ts']. cbn [fst snd]. case_decide as Hk; subst.
  - cbn. split_and!.
    + exists file, ts'. by right.
    + intros x. rewrite elem_of_union.
      destruct (dict_get k result) as [r|]; cbn in *.
      * destruct Hd as (_ & Hty & _). rewrite Hty. naive_solver.
      * rewrite elem_of_empty. naive_solver.
    + intros f. rewrite elem_of_union, elem_of_singleton.
      destruct (dict_get k result) as [r|]; cbn in *.
      * destruct Hd as (_ & _ & Hfi). rewrite Hfi. naive_solver.
      * rewrite elem_of_empty. naive_solver.
  - eapply describes_ext; [|exact Hd]. naive_solver.
Qed.

Lemma describes_merge_file k s : ∀ result occ,
  describes (dict_get k result) occ →
  describes (dict_get k (merge_file result s))
            (λ f ts, occ f ts ∨ (f = path s ∧ (k, ts) ∈ path_types s)).
Proof.
  unfold merge_file. generalize (path s) as file.
  induction (path_types s) as [|e entries IH]; intros file result occ Hd; cbn.
  - eapply describes_ext; [|exact Hd]. intros f ts.
    rewrite elem_of_nil. naive_solver.
  - eapply describes_ext; [|apply IH, describes_merge_entry, Hd].
    intros f ts. cbn. rewrite elem_of_cons. naive_solver.
Qed.

Lemma describes_merge_from k schemas : ∀ result occ,
  describes (dict_get k result) occ →
  describes (dict_get k (foldl merge_file result schemas))
            (λ f ts, occ f ts ∨ occurs schemas k f ts).
Proof.
  unfold occurs.
  induction schemas as [|s schemas IH]; intros result occ Hd; cbn.
  - eapply describes_ext; [|exact Hd]. intros f ts.
    setoid_rewrite elem_of_nil. naive_solver.
  - eapply describes_ext; [|apply IH, describes_merge_file, Hd].
    intros f ts. cbn. setoid_rewrite elem_of_cons. naive_solver.
Qed.

Lemma describes_merge k schemas :
  describes (dict_get k (foldl merge_file [] schemas)) (occurs schemas k).
Proof.
  eapply describes_ext;
    [|apply (describes_merge_from k schemas [] (λ _ _, False))].
  - intros f ts. cbn. tauto.
  - cbn. by intros _ _ [].
Qed.

Lemma merge_keys_NoDup schemas :
  NoDup (foldl merge_file [] schemas).*1.
Proof.
  assert (∀ result : dict RecAcc,
    NoDup result.*1 → NoDup (foldl merge_file result schemas).*1) as H.
  { induction schemas as [|s schemas IH]; intros result Hnd; cbn; [done|].
    apply IH. unfold merge_file. generalize (path s) as file.
    revert result Hnd.
    induction (path_types s) as [|e entries IHe]; intros result Hnd file;
      cbn; [done|].
    apply IHe. by apply dict_keys_upsert_NoDup. }
  apply H. constructor.
Qed.

Lemma occurs_Permutation schemas schemas' k f ts :
  schemas ≡ₚ schemas' → occurs schemas k f ts ↔ occurs schemas' k f ts.
Proof. intros Hp. unfold occurs. by setoid_rewrite Hp. Qed.

(** The finalized dictionary, seen through the accumulated one. *)
Lemma merge_schemas_get k schemas :
  dict_get k (merge_schemas schemas) =
    finalize (list_to_set (path <$> schemas))
      <$> dict_get k (foldl merge_file [] schemas).
Proof. unfold merge_schemas. by rewrite dict_get_map_values. Qed.

Lemma merge_schemas_keys schemas :
  (merge_schemas schemas).*1 = (foldl merge_file [] schemas).*1.
Proof. unfold merge_schemas. by rewrite dict_keys_map_values. Qed.

Lemma merge_schemas_NoDup schemas : NoDup (merge_schemas schemas).*1.
Proof. rewrite merge_schemas_keys. apply merge_keys_NoDup. Qed.

Lemma merge_schemas_elem k rec schemas :
  (k, rec) ∈ merge_schemas schemas ↔ dict_get k (merge_schemas schemas) = Some rec.
Proof.
  split.
  - apply dict_get_NoDup, merge_schemas_NoDup.
  - apply dict_get_Some_elem.
Qed.

(** ** The merged schema does not depend on the order of the files *)

Lemma merge_get_Permutation schemas schemas' k :
  schemas ≡ₚ schemas' →
  dict_get k (merge_schemas schemas) = dict_get k (merge_schemas schemas').
Proof.
  intros Hp. rewrite !merge_schemas_get.
  assert (list_to_set (path <$> schemas) =@{gset string}
          list_to_set (path <$> schemas')) as ->.
  { apply set_eq. intros f. by rewrite !elem_of_list_to_set, Hp. }
  f_equal. eapply describes_inj; [apply describes_merge|].
  eapply describes_ext; [|apply describes_merge].
  intros f ts. symmetry. by apply occurs_Permutation.
Qed.

Lemma dict_NoDup_entries {V} (d : dict V) : NoDup d.*1 → NoDup d.
Proof. apply NoDup_fmap_1. Qed.

(** C1. Merging the per-file schemas of a corpus in any permutation of
    the file order yields the same finalized merged schema: the same set
    of paths, and under each path the same record, that is the same
    sorted [types], [files] and [missing_in_files] lists.  The two
    dictionaries hold the same entries; only the order in which the
    paths were inserted can differ. *)
Theorem merge_schemas_order_independent (schemas schemas' : list FileSchema) :
  schemas ≡ₚ schemas' →
  (∀ k, k ∈ (merge_schemas schemas).*1 ↔ k ∈ (merge_schemas schemas').*1)
  ∧ (∀ k, dict_get k (merge_schemas schemas)
          = dict_get k (merge_schemas schemas'))
  ∧ merge_schemas schemas ≡ₚ merge_schemas schemas'.
Proof.
  intros Hp. split_and!.
  - intros k. by rewrite <- !dict_get_is_Some, (merge_get_Permutation _ _ _ Hp).
  - intros k. by apply merge_get_Permutation.
  - apply NoDup_Permutation.
    + apply dict_NoDup_entries, merge_schemas_NoDup.
    + apply dict_NoDup_entries, merge_schemas_NoDup.
    + intros [k rec].
      by rewrite !merge_schemas_elem, (merge_get_Permutation _ _ _ Hp).
Qed.

Lemma merge_schemas_order_independent_witness :
  demo_schemas ≡ₚ reverse demo_schemas
  ∧ (∀ k, dict_get k (merge_schemas demo_schemas)
          = dict_get k (merge_schemas (reverse demo_schemas))).
Proof.
  assert (demo_schemas ≡ₚ reverse demo_schemas) as Hp.
  { symmetry. apply reverse_Permutation. }
  split; [exact Hp|].
  apply (merge_schemas_order_independent _ _ Hp).
Defined.

(** The order in which the paths were inserted does follow the order of
    the files. *)
Example merge_schemas_key_order :
  (merge_schemas demo_schemas).*1 = ["$"; "$.x"; "$.x.y"; "$.z"; "$.z[]"]
  ∧ (merge_schemas (reverse demo_schemas)).*1
    = ["$"; "$.z"; "$.z[]"; "$.x"; "$.x.y"].
Proof. split; vm_compute; reflexivity. Qed.

(** ** Finalization *)

Lemma merge_schemas_elem_finalize k rec schemas :
  (k, rec) ∈ merge_schemas schemas →
  ∃ r, dict_get k (foldl merge_file [] schemas) = Some r
       ∧ rec = finalize (list_to_set (path <$> schemas)) r.
Proof.
  rewrite merge_schemas_elem, merge_schemas_get.
  destruct (dict_get k _) as [r|]; [|done].
  intros [= <-]. eauto.
Qed.

(** C7. After finalization, under every path of the merged schema,
    [missing_in_files] holds exactly the corpus files that are not among
    the path's [files], and each of [types], [files] and
    [missing_in_files] is sorted (and free of repetitions). *)
Theorem finalized_record_missing_sorted (schemas : list FileSchema)
    (k : string) (rec : PathRecord) :
  (k, rec) ∈ merge_schemas schemas →
  (∀ f, f ∈ missing_in_files rec ↔ f ∈ path <$> schemas ∧ f ∉ files rec)
  ∧ missing_in_files rec
      = sorted (list_to_set (path <$> schemas) ∖ list_to_set (files rec))
  ∧ StronglySorted String.le (types rec)
  ∧ StronglySorted String.le (files rec)
  ∧ StronglySorted String.le (missing_in_files rec)
  ∧ NoDup (types rec) ∧ NoDup (files rec) ∧ NoDup (missing_in_files rec).
Proof.
  intros (r & _ & ->)%merge_schemas_elem_finalize. cbn.
  split_and!; try apply sorted_StronglySorted; try apply sorted_NoDup; [|done].
  intros f.
  by rewrite elem_of_sorted, elem_of_difference, !elem_of_list_to_set.
Qed.

Lemma finalized_record_missing_sorted_witness :
  missing_in_files
    {| types := ["number"; "string"];
       files := ["A.json"; "B.json"];
       missing_in_files := ["C.json"; "bad.json"] |}
  = sorted (list_to_set (path <$> demo_schemas)
            ∖ list_to_set ["A.json"; "B.json"]).
Proof.
  refine (proj1 (proj2 (finalized_record_missing_sorted demo_schemas "$.x.y"
    {| types := ["number"; "string"];
       files := ["A.json"; "B.json"];
       missing_in_files := ["C.json"; "bad.json"] |} _))).
  apply merge_schemas_elem. vm_compute. reflexivity.
Defined.

(** ** The per-file schema *)

Lemma dict_get_add_type k d pt :
  dict_get k (add_type d pt) =
    if decide (pt.1 = k) then Some (default ∅ (dict_get k d) ∪ {[pt.2]})
    else dict_get k d.
Proof. unfold add_type. by rewrite dict_get_upsert. Qed.

Lemma collect_types_from k pairs : ∀ d : dict (gset string),
  match dict_get k (foldl add_type d pairs) with
  | Some s =>
      (is_Some (dict_get k d) ∨ k ∈ pairs.*1)
      ∧ ∀ x, x ∈ s ↔ (∃ s0, dict_get k d = Some s0 ∧ x ∈ s0) ∨ (k, x) ∈ pairs
  | None => dict_get k d = None ∧ k ∉ pairs.*1
  end.
Proof.
  induction pairs as [|[k' t] pairs IH]; intros d; cbn [foldl].
  - destruct (dict_get k d) as [s|] eqn:Hd.
    + split; [by left|]. intros x. rewrite elem_of_nil. naive_solver.
    + split; [done|]. apply not_elem_of_nil.
  - specialize (IH (add_type d (k', t))).
    rewrite dict_get_add_type in IH. cbn [fst snd] in IH.
    destruct (dict_get k (foldl add_type _ pairs)) as [s|].
    + destruct IH as [Hkey Hmem]. cbn [fmap list_fmap fst].
      case_decide as Hk; subst.
      * split; [right; left|].
        intros x. rewrite Hmem, elem_of_cons. clear Hmem Hkey.
        destruct (dict_get k d) as [s0|]; cbn; split.
        -- intros [(? & [= <-] & Hx)|?]; [|by auto].
           apply elem_of_union in Hx as [?|Hx%elem_of_singleton]; subst; eauto.
        -- intros [(? & [= <-] & ?)|[[= <-]|?]]; [left|left|by right];
             (eexists; split; [done|]); set_solver.
        -- intros [(? & [= <-] & Hx)|?]; [|by auto].
           apply elem_of_union in Hx as [Hx|Hx%elem_of_singleton];
             [by apply elem_of_empty in Hx|subst; eauto].
        -- intros [(? & [=] & ?)|[[= <-]|?]]; [left|by right].
           eexists; split; [done|]. set_solver.
      * split.
        -- destruct Hkey as [?|?]; [by left|right]. by right.
        -- intros x. rewrite Hmem, elem_of_cons. split; [intros [?|?]; eauto|].
           intros [?|[[= ? ?]|?]]; [eauto|done|eauto].
    + destruct IH as [Hnone Hnot]. case_decide; [done|].
      split; [done|]. cbn. by rewrite not_elem_of_cons.
Qed.

Lemma collect_types_keys_NoDup pairs : NoDup (collect_types pairs).*1.
Proof.
  unfold collect_types.
  assert (∀ d : dict (gset string),
    NoDup d.*1 → NoDup (foldl add_type d pairs).*1) as H.
  { induction pairs as [|pt pairs IH]; intros d Hnd; cbn; [done|].
    apply IH. by apply dict_keys_upsert_NoDup. }
  apply H. constructor.
Qed.

Lemma collect_types_Some k s pairs :
  dict_get k (collect_types pairs) = Some s →
  k ∈ pairs.*1 ∧ ∀ x, x ∈ s ↔ (k, x) ∈ pairs.
Proof.
  unfold collect_types. intros Hs.
  pose proof (collect_types_from k pairs []) as H. rewrite Hs in H.
  destruct H as [[[? [=]]|?] H]. split; [done|].
  intros x. rewrite H. cbn. naive_solver.
Qed.

Lemma collect_types_None k pairs :
  dict_get k (collect_types pairs) = None → k ∉ pairs.*1.
Proof.
  unfold collect_types. intros Hn.
  pose proof (collect_types_from k pairs []) as H. rewrite Hn in H. apply H.
Qed.

Lemma collect_types_elem k t pairs :
  (k, t) ∈ pairs →
  ∃ s, (k, s) ∈ collect_types pairs ∧ t ∈ s.
Proof.
  intros Hin. destruct (dict_get k (collect_types pairs)) as [s|] eqn:Hs.
  - exists s. split; [by apply dict_get_Some_elem|].
    by apply (collect_types_Some _ _ _ Hs).
  - apply collect_types_None in Hs. destruct Hs.
    apply list_elem_of_fmap. by exists (k, t).
Qed.

Lemma collect_types_nonempty k s pairs :
  (k, s) ∈ collect_types pairs → s ≠ ∅.
Proof.
  intros Hin.
  apply dict_get_NoDup in Hin as Hget; [|apply collect_types_keys_NoDup].
  apply collect_types_Some in Hget as [Hk Hmem].
  apply list_elem_of_fmap in Hk as ([k' t] & -> & Ht). cbn in *.
  intros ->. apply Hmem in Ht. by apply not_elem_of_empty in Ht.
Qed.

Section analysis_facts.
Variable load : string → option JsonValue.

Lemma analyze_files_fmap files :
  analyze_files load files = file_schema load <$> files.
Proof.
  induction files as [|p files IH]; cbn; [done|].
  unfold file_schema at 1. destruct (load p); by rewrite IH.
Qed.

Lemma file_schema_path p : path (file_schema load p) = p.
Proof. unfold file_schema. by destruct (load p). Qed.

Lemma analyze_files_paths files : path <$> analyze_files load files = files.
Proof.
  rewrite analyze_files_fmap, <- list_fmap_compose.
  rewrite <- (list_fmap_id files) at 2.
  apply list_fmap_ext. intros _ p _. apply file_schema_path.
Qed.

Lemma file_schema_nonempty p : nonempty_types (file_schema load p).
Proof.
  unfold file_schema, nonempty_types. destruct (load p) as [obj|]; cbn.
  - intros k ts. apply collect_types_nonempty.
  - intros k ts [= -> ->]%list_elem_of_singleton.
    apply (non_empty_singleton_L (C:=gset string)).
Qed.

Lemma analyze_files_nonempty files :
  Forall nonempty_types (analyze_files load files).
Proof.
  rewrite analyze_files_fmap. apply Forall_fmap, Forall_forall.
  intros p _. apply file_schema_nonempty.
Qed.
End analysis_facts.

(** ** What the merged schema covers *)

Lemma merge_schemas_covers schemas s k ts x :
  s ∈ schemas → (k, ts) ∈ path_types s → x ∈ ts →
  ∃ rec, dict_get k (merge_schemas schemas) = Some rec
         ∧ x ∈ types rec ∧ path s ∈ files rec.
Proof.
  intros Hs Hk Hx. rewrite merge_schemas_get.
  pose proof (describes_merge k schemas) as Hd.
  assert (occurs schemas k (path s) ts) as Hocc by (by exists s).
  destruct (dict_get k (foldl merge_file [] schemas)) as [r|]; cbn in Hd.
  - destruct Hd as (_ & Hty & Hfi). eexists. split; [done|]. cbn.
    rewrite !elem_of_sorted, Hty, Hfi.
    split; [by exists (path s), ts|by exists ts].
  - by destruct (Hd _ _ Hocc).
Qed.

Lemma merge_schemas_nonempty schemas k rec :
  Forall nonempty_types schemas →
  (k, rec) ∈ merge_schemas schemas →
  types rec ≠ [] ∧ files rec ≠ [].
Proof.
  intros Hne (r & Hr & ->)%merge_schemas_elem_finalize. cbn.
  pose proof (describes_merge k schemas) as Hd. rewrite Hr in Hd.
  destruct Hd as ((f & ts & s & Hs & <- & Hk) & Hty & Hfi).
  rewrite !sorted_nil. split.
  - rewrite Forall_forall in Hne.
    destruct (set_choose_L ts (Hne s Hs k ts Hk)) as [x Hx].
    intros Hempty. apply (not_elem_of_empty (C:=gset string) x).
    rewrite <- Hempty, Hty. exists (path s), ts. split; [|done]. by exists s.
  - intros Hempty. apply (not_elem_of_empty (C:=gset string) (path s)).
    rewrite <- Hempty, Hfi. exists ts. by exists s.
Qed.

(** C9. In the merged schema built from the per-file schemas that
    [analyze_files] produces, every record has a non-empty [types] list
    and a non-empty [files] list. *)
Theorem merged_records_nonempty (load : string → option JsonValue)
    (corpus : list string) (k : string) (rec : PathRecord) :
  (k, rec) ∈ merge_schemas (analyze_files load corpus) →
  types rec ≠ [] ∧ files rec ≠ [].
Proof. apply merge_schemas_nonempty, analyze_files_nonempty. Qed.

Lemma merged_records_nonempty_witness :
  types {| types := ["invalid_json"; "object"];
           files := ["A.json"; "B.json"; "C.json"; "bad.json"];
           missing_in_files := [] |} ≠ []
  ∧ files {| types := ["invalid_json"; "object"];
             files := ["A.json"; "B.json"; "C.json"; "bad.json"];
             missing_in_files := [] |} ≠ [].
Proof.
  apply (merged_records_nonempty demo_load demo_files "$").
  apply merge_schemas_elem. vm_compute. reflexivity.
Defined.

(** C2. The analysis is total over a corpus with files that fail to
    parse.  Whatever [load] does on each file, [analyze_files] returns
    one schema per file, each depending on that file alone; the schema
    of a file that fails is exactly the single entry mapping [$] to
    [{invalid_json}]; and the merge still reports every failing file
    under [$] and every (path, type) pair walked in every file that
    parses. *)
Theorem analysis_total_over_invalid_json (load : string → option JsonValue)
    (corpus : list string) (p : string) :
  p ∈ corpus → load p = None →
  analyze_files load corpus = file_schema load <$> corpus
  ∧ file_schema load p
      = {| path := p; path_types := [("$", {["invalid_json"]})] |}
  ∧ (∃ rec, dict_get "$" (merge_schemas (analyze_files load corpus)) = Some rec
            ∧ "invalid_json" ∈ types rec ∧ p ∈ files rec)
  ∧ (∀ q obj k t,
       q ∈ corpus → load q = Some obj → (k, t) ∈ walk_json obj "$" →
       ∃ rec, dict_get k (merge_schemas (analyze_files load corpus)) = Some rec
              ∧ t ∈ types rec ∧ q ∈ files rec).
Proof.
  intros Hin Hbad. split_and!.
  - apply analyze_files_fmap.
  - unfold file_schema. by rewrite Hbad.
  - rewrite <- (file_schema_path load p).
    apply (merge_schemas_covers _ _ _ {["invalid_json"]}).
    + rewrite analyze_files_fmap. by apply list_elem_of_fmap_2.
    + unfold file_schema. rewrite Hbad. cbn. apply list_elem_of_here.
    + by apply elem_of_singleton.
  - intros q obj k t Hq Hobj Hkt.
    destruct (collect_types_elem _ _ _ Hkt) as (ts & Hts & Ht).
    rewrite <- (file_schema_path load q).
    apply (merge_schemas_covers _ _ _ ts); [|  |done].
    + rewrite analyze_files_fmap. by apply list_elem_of_fmap_2.
    + unfold file_schema. by rewrite Hobj.
Qed.

Lemma analysis_total_over_invalid_json_witness :
  "bad.json" ∈ demo_files ∧ demo_load "bad.json" = None
  ∧ ∃ rec, dict_get "$" (merge_schemas (analyze_files demo_load demo_files))
             = Some rec
           ∧ "invalid_json" ∈ types rec ∧ "bad.json" ∈ files rec.
Proof.
  assert ("bad.json" ∈ demo_files) as Hin.
  { unfold demo_files. do 3 apply list_elem_of_further. apply list_elem_of_here. }
  assert (demo_load "bad.json" = None) as Hbad by reflexivity.
  split; [exact Hin|]. split; [exact Hbad|].
  exact (proj1 (proj2 (proj2
    (analysis_total_over_invalid_json demo_load demo_files "bad.json" Hin Hbad)))).
Defined.

(** ** Conflicts and unique paths *)

Lemma dict_get_Some_unique {V} k (v v' : V) (d : dict V) :
  NoDup d.*1 → dict_get k d = Some v → (k, v') ∈ d → v' = v.
Proof.
  intros Hnd Hget Hin. apply (dict_get_NoDup _ _ _ Hnd) in Hin. congruence.
Qed.

Lemma sorted_singleton (x : string) : sorted {[x]} = [x].
Proof. unfold sorted. by rewrite elements_singleton. Qed.

Lemma sorted_pair (x y : string) : x ≠ y → sorted ({[x]} ∪ {[y]}) ≡ₚ [x; y].
Proof.
  intros Hxy. unfold sorted. rewrite merge_sort_Permutation.
  rewrite elements_union_singleton, elements_singleton; [done|].
  by rewrite elem_of_singleton.
Qed.

(** C8. Three files [sA], [sB], [sC] in which a path [p] (such as [x.y])
    holds a string in [sA], a number in [sB], and is absent from [sC].
    The merged record for [p] has [types = [number; string]], its [files]
    are the two files [sA] and [sB], [missing_in_files] is [[sC]]; [p]
    is among the paths with a type conflict and is not among the unique
    paths. *)
Theorem conflict_and_uniqueness (sA sB sC : FileSchema) (p : string) :
  NoDup (path_types sA).*1 → NoDup (path_types sB).*1 →
  path sA ≠ path sB → path sA ≠ path sC → path sB ≠ path sC →
  dict_get p (path_types sA) = Some {["string"]} →
  dict_get p (path_types sB) = Some {["number"]} →
  dict_get p (path_types sC) = None →
  ∃ rec, dict_get p (merge_schemas [sA; sB; sC]) = Some rec
    ∧ types rec = ["number"; "string"]
    ∧ files rec ≡ₚ [path sA; path sB]
    ∧ missing_in_files rec = [path sC]
    ∧ p ∈ type_conflict_paths (merge_schemas [sA; sB; sC])
    ∧ p ∉ unique_paths (merge_schemas [sA; sB; sC]).
Proof.
  intros HndA HndB HAB HAC HBC HA HB HC.
  set (r := {| acc_types := {["string"]} ∪ {["number"]};
               acc_files := {[path sA]} ∪ {[path sB]} |}).
  assert (∀ f ts, occurs [sA; sB; sC] p f ts ↔
            (f = path sA ∧ ts = {["string"]})
            ∨ (f = path sB ∧ ts = {["number"]})) as Hocc.
  { intros f ts. unfold occurs. split.
    - intros (s & Hs & <- & Hin).
      apply elem_of_cons in Hs as [->|Hs]; [left|].
      { split; [done|]. exact (dict_get_Some_unique _ _ _ _ HndA HA Hin). }
      apply elem_of_cons in Hs as [->|Hs]; [right|].
      { split; [done|]. exact (dict_get_Some_unique _ _ _ _ HndB HB Hin). }
      apply list_elem_of_singleton in Hs as ->.
      apply dict_get_None in HC. destruct HC.
      apply list_elem_of_fmap. by exists (p, ts).
    - intros [[-> ->]|[-> ->]].
      + exists sA. split_and!; [left|done|by apply dict_get_Some_elem].
      + exists sB.
        split_and!; [right; left|done|by apply dict_get_Some_elem]. }
  assert (dict_get p (foldl merge_file [] [sA; sB; sC]) = Some r) as Hr.
  { eapply describes_inj; [apply describes_merge|].
    eapply describes_ext; [intros f ts; symmetry; apply Hocc|].
    cbn. split_and!.
    - exists (path sA), {["string"]}. by left.
    - intros x. rewrite elem_of_union. split.
      + intros [Hx|Hx]; [exists (path sA), {["string"]}
                        |exists (path sB), {["number"]}]; auto.
      + intros (f & ts & [[-> ->]|[-> ->]] & Hx); auto.
    - intros f. rewrite elem_of_union, !elem_of_singleton. split.
      + intros [-> | ->]; [exists {["string"]}|exists {["number"]}]; auto.
      + intros (ts & [[-> ->]|[-> ->]]); auto. }
  assert (dict_get p (merge_schemas [sA; sB; sC])
          = Some (finalize (list_to_set (path <$> [sA; sB; sC])) r)) as Hget.
  { by rewrite merge_schemas_get, Hr. }
  assert (files (finalize (list_to_set (path <$> [sA; sB; sC])) r)
          ≡ₚ [path sA; path sB]) as Hfiles.
  { cbn. by apply sorted_pair. }
  eexists. split; [exact Hget|]. split_and!.
  - reflexivity.
  - exact Hfiles.
  - cbn. rewrite list_to_set_sorted.
    rewrite <- sorted_singleton. f_equal.
    apply set_eq. intros f. set_solver.
  - apply list_elem_of_fmap.
    exists (p, finalize (list_to_set (path <$> [sA; sB; sC])) r).
    split; [done|].
    apply list_elem_of_filter. split; [|by apply dict_get_Some_elem].
    cbn [snd finalize types].
    replace (sorted (acc_types r)) with ["number"; "string"] by reflexivity.
    cbn. lia.
  - intros ([k rec'] & -> & [Hlen Hin]%list_elem_of_filter)%list_elem_of_fmap.
    cbn [fst snd] in *. apply merge_schemas_elem in Hin. rewrite Hget in Hin.
    injection Hin as <-. apply Permutation_length in Hfiles.
    cbn in Hfiles, Hlen. congruence.
Qed.

Lemma conflict_and_uniqueness_witness :
  ∃ rec, dict_get "x.y" (merge_schemas [schema_A; schema_B; schema_C]) = Some rec
    ∧ types rec = ["number"; "string"]
    ∧ files rec ≡ₚ ["A.json"; "B.json"]
    ∧ missing_in_files rec = ["C.json"]
    ∧ "x.y" ∈ type_conflict_paths (merge_schemas [schema_A; schema_B; schema_C])
    ∧ "x.y" ∉ unique_paths (merge_schemas [schema_A; schema_B; schema_C]).
Proof.
  apply (conflict_and_uniqueness schema_A schema_B schema_C "x.y").
  - apply collect_types_keys_NoDup.
  - apply collect_types_keys_NoDup.
  - vm_compute. discriminate.
  - vm_compute. discriminate.
  - vm_compute. discriminate.
  - vm_compute. reflexivity.
  - vm_compute. reflexivity.
  - vm_compute. reflexivity.
Defined.

(** The same corpus seen by the summary. *)
Example summarize_three_files :
  summarize_schema (merge_schemas [schema_A; schema_B; schema_C]) =
    {| total_paths := 4;
       paths_with_type_conflict_count := 1;
       paths_with_type_conflict := ["x.y"];
       paths_missing_count := 3;
       paths_missing_examples := ["x"; "x.y"; "z"];
       unique_paths_count := 1;
       unique_paths_examples := ["z"] |}.
Proof. vm_compute. reflexivity. Qed.

(** ** The walker on the documents of the specification *)

(** C3 fails as stated: started at [$], as [analyze_files] does, the
    walker gives the child of the root the path [$.k], not the bare
    path [k]. *)
Lemma root_child_path_not_bare :
  walk_json (JObject [("k", JNull)]) "$" = [("$", "object"); ("$.k", "null")]
  ∧ child_path "$" "k" ≠ "k"
  ∧ ("k", "null") ∉ walk_json (JObject [("k", JNull)]) "$".
Proof.
  split_and!; [done|done|].
  cbn. rewrite !not_elem_of_cons. split_and!; [done|done|apply not_elem_of_nil].
Qed.

(** C3, amended. When the walker recurses into a mapping entry with key
    [k], the child's path is [base.k] whenever the current path [base]
    is not empty; this includes the walk started at [$], whose children
    get [$.k].  The child gets the bare path [k] only when the current
    path is the empty string, the default starting path, and the root
    itself is then reported under [$]. *)
Theorem child_path_of_mapping_entry :
  (∀ items base,
     walk_json (JObject items) base =
       (str_or base "$", "object")
         :: flat_map (λ kv, walk_json kv.2 (child_path base kv.1)) items)
  ∧ (∀ a base k,
       child_path (String a base) k = String a base +:+ "." +:+ k)
  ∧ (∀ k, child_path "$" k = "$." +:+ k)
  ∧ (∀ k, child_path EmptyString k = k)
  ∧ str_or EmptyString "$" = "$".
Proof. split_and!; done. Qed.

(** C4. Walking
    [{"a": true, "b": 1, "c": 1.5, "d": null, "e": "x", "f": [], "g": {}}]
    yields the tags boolean, number, number, null, string, array, object
    at the paths [a] to [g]; a boolean is tagged [boolean] and so never
    [number]; an integer and a float are both tagged [number]. *)
Theorem type_tags_of_each_kind :
  walk_json doc_tags EmptyString =
    [("$", "object"); ("a", "boolean"); ("b", "number"); ("c", "number");
     ("d", "null"); ("e", "string"); ("f", "array"); ("g", "object")]
  ∧ (∀ b, _json_type (JBool b) = "boolean")
  ∧ (∀ b, _json_type (JBool b) ≠ "number")
  ∧ (∀ b base, walk_json (JBool b) base = [(str_or base "$", "boolean")])
  ∧ (∀ n, _json_type (JInt n) = "number")
  ∧ (∀ x, _json_type (JFloat x) = "number").
Proof. split_and!; done. Qed.

(** Started at [$], the same tags appear under [$.a] to [$.g]. *)
Lemma type_tags_from_root_marker :
  walk_json doc_tags "$" =
    [("$", "object"); ("$.a", "boolean"); ("$.b", "number");
     ("$.c", "number"); ("$.d", "null"); ("$.e", "string");
     ("$.f", "array"); ("$.g", "object")].
Proof. reflexivity. Qed.

Lemma walk_json_array_take elems base :
  walk_json (JArray elems) base = walk_json (JArray (take 5 elems)) base.
Proof. by rewrite !walk_json_array, take_take. Qed.

Lemma str_or_app s a t dflt :
  str_or (s +:+ String a t) dflt = s +:+ String a t.
Proof. by destruct s. Qed.

Lemma str_or_child_path base a k dflt :
  str_or (child_path base (String a k)) dflt = child_path base (String a k).
Proof. by destruct base. Qed.

Lemma walk_json_items beyond base :
  walk_json (doc_items (one_to_five ++ beyond)) base =
    (str_or base "$", "object")
      :: (child_path base "items", "array")
      :: replicate 5 (child_path base "items" +:+ "[]", "number").
Proof.
  unfold doc_items. rewrite walk_json_object. cbn [flat_map fst snd].
  rewrite walk_json_array, app_nil_r, str_or_child_path. unfold one_to_five.
  cbn [fmap list_fmap app take flat_map walk_json]. rewrite take_0.
  cbn [flat_map app]. by rewrite str_or_app.
Qed.

(** C5. On a sequence the walker samples the first five elements, all
    under the path [parent[]], and walks no element after them.  Walking
    [{"items": [1,2,3,4,5,6,7,8,9,10]}] gives under [items[]] the five
    entries of the elements at indices 0 to 4, and the type set at
    [items[]] is [{number}] whatever follows the fifth element. *)
Theorem array_sampling_bound :
  (∀ elems base,
     walk_json (JArray elems) base =
       (str_or base "$", "array")
         :: flat_map (λ el, walk_json el (base +:+ "[]")) (take 5 elems))
  ∧ (∀ elems base,
       walk_json (JArray elems) base = walk_json (JArray (take 5 elems)) base)
  ∧ walk_json (doc_items (one_to_five ++ six_to_ten)) EmptyString =
      [("$", "object"); ("items", "array");
       ("items[]", "number"); ("items[]", "number"); ("items[]", "number");
       ("items[]", "number"); ("items[]", "number")]
  ∧ (∀ beyond,
       walk_json (doc_items (one_to_five ++ beyond)) EmptyString
       = walk_json (doc_items one_to_five) EmptyString)
  ∧ (∀ beyond,
       dict_get "items[]"
         (collect_types (walk_json (doc_items (one_to_five ++ beyond)) EmptyString))
       = Some {["number"]}).
Proof.
  split_and!.
  - apply walk_json_array.
  - apply walk_json_array_take.
  - reflexivity.
  - intros beyond. by rewrite walk_json_items.
  - intros beyond. rewrite walk_json_items. vm_compute. reflexivity.
Qed.

(** Started at [$], the sampled elements are reported under [$.items[]]. *)
Lemma array_sampling_from_root_marker beyond :
  walk_json (doc_items (one_to_five ++ beyond)) "$" =
    ("$", "object") :: ("$.items", "array")
      :: replicate 5 ("$.items[]", "number").
Proof. by rewrite walk_json_items. Qed.

(** C6. Walking [{"items": []}] yields, besides the entry of the root,
    exactly one entry for [items], namely [(items, array)], and no entry
    for [items[]]: an empty sequence contributes its own pair only. *)
Theorem empty_array_edge_case :
  walk_json (doc_items []) EmptyString = [("$", "object"); ("items", "array")]
  ∧ filter (λ pt, pt.1 = "items") (walk_json (doc_items []) EmptyString)
    = [("items", "array")]
  ∧ filter (λ pt, pt.1 = "items[]") (walk_json (doc_items []) EmptyString) = []
  ∧ (∀ base, walk_json (JArray []) base = [(str_or base "$", "array")]).
Proof. split_and!; done. Qed.

Lemma empty_array_from_root_marker :
  walk_json (doc_items []) "$" = [("$", "object"); ("$.items", "array")].
Proof. reflexivity. Qed.

(** C10. The walker terminates on every JSON value and every starting
    path.  The calls it makes from a value are on values of the mapping
    or on the first five elements of the sequence, and that relation is
    well founded; run with a budget of nested calls above the depth of
    the value, the walker returns the list [walk_json obj base]; and
    that list has at most one pair per node of the value. *)
Theorem walk_json_terminates :
  well_founded walk_calls
  ∧ (∀ obj base extra,
       walk_json_fuel (S (depth obj) + extra) obj base
       = Some (walk_json obj base))
  ∧ (∀ obj base, (length (walk_json obj base) ≤ nodes obj)%nat).
Proof.
  split_and!.
  - apply walk_calls_wf.
  - intros obj base extra. apply walk_json_fuel_enough. lia.
  - intros obj base. apply walk_json_length.
Qed.

Lemma walk_calls_depth child parent :
  walk_calls child parent → (depth child < depth parent)%nat.
Proof.
  intros [k v items Hin|el elems Hin].
  - by eapply depth_item_lt.
  - apply depth_elem_lt. by eapply (subseteq_take 5).
Qed.

(** Without budget the bounded walker does not return. *)
Example walk_json_fuel_exhausted :
  walk_json_fuel 1 (doc_items []) EmptyString = None
  ∧ walk_json_fuel 2 (doc_items []) EmptyString
    = Some [("$", "object"); ("items", "array")].
Proof. done. Qed.

(** * Further properties of the code *)

(** ** The walker *)

Lemma walk_json_cons obj base :
  walk_json obj base =
    (str_or base "$", _json_type obj) :: tail (walk_json obj base).
Proof. by destruct (walk_json_head obj base) as [rest ->]. Qed.

Lemma _json_type_tags obj : _json_type obj ∈ json_tags.
Proof.
  rewrite _json_type_cases. unfold json_tags.
  destruct obj; repeat first [apply list_elem_of_here|apply list_elem_of_further].
Qed.

(** X1. Every pair the walker emits carries one of the six JSON tags; in
    particular the walker never emits [invalid_json] nor the name of a
    Python type. *)
Theorem walk_json_tags (obj : JsonValue) (base : string) :
  Forall (λ pt, pt.2 ∈ json_tags) (walk_json obj base)
  ∧ Forall (λ pt, pt.2 ≠ "invalid_json") (walk_json obj base).
Proof.
  assert (Forall (λ pt, pt.2 ∈ json_tags) (walk_json obj base)) as H.
  { revert base.
    induction obj as [ | b | n | x | s | elems IH | items IH ]
      using JsonValue_nested_ind; intros base;
      try (constructor; [apply _json_type_tags|constructor]).
    - rewrite walk_json_array. constructor; [apply (_json_type_tags (JArray [])) |].
      apply Forall_flat_map, Forall_forall. intros el Hel.
      rewrite Forall_forall in IH. apply IH. by eapply (subseteq_take 5).
    - rewrite walk_json_object.
      constructor; [apply (_json_type_tags (JObject []))|].
      apply Forall_flat_map. eapply Forall_impl; [exact IH|].
      intros kv Hkv. apply Hkv. }
  split; [exact H|].
  eapply Forall_impl; [exact H|]. intros [k t] Ht Hbad.
  cbn [snd] in Ht, Hbad. subst t.
  unfold json_tags in Ht. rewrite !elem_of_cons, elem_of_nil in Ht.
  naive_solver.
Qed.

Lemma child_path_app base k : ∃ suffix, child_path base k = base +:+ suffix.
Proof. destruct base; [by exists k|]. by exists ("." +:+ k). Qed.

Lemma string_app_assoc (s t u : string) : (s +:+ t) +:+ u = s +:+ (t +:+ u).
Proof.
  induction s as [|a s IH]; [done|].
  change (String a ((s +:+ t) +:+ u) = String a (s +:+ (t +:+ u))).
  by rewrite IH.
Qed.

(** X2. Every path the walker emits extends the starting path: walking
    from [base] yields only paths of the form [base ++ suffix], and the
    first pair is the entry of the value itself, under [base] (under [$]
    when [base] is empty).  Walking from [$] yields only paths that start
    with [$]. *)
Theorem walk_json_paths_extend_base (obj : JsonValue) (base : string) :
  Forall (λ pt, ∃ suffix, pt.1 = base +:+ suffix) (walk_json obj base)
  ∧ head (walk_json obj base) = Some (str_or base "$", _json_type obj).
Proof.
  split; [|by rewrite walk_json_cons].
  revert base.
  assert (∀ base, ∃ suffix, str_or base "$" = base +:+ suffix) as Hroot.
  { intros [|a base]; [by exists "$"|]. exists EmptyString.
    change (str_or (String a base) "$") with (String a base).
    generalize (String a base) as s.
    induction s as [|c s IH]; [done|].
    change (String c s = String c (s +:+ EmptyString)). by f_equal. }
  induction obj as [ | b | n | x | s | elems IH | items IH ]
    using JsonValue_nested_ind; intros base;
    try (constructor; [apply Hroot|constructor]).
  - rewrite walk_json_array. constructor; [apply Hroot|].
    apply Forall_flat_map, Forall_forall. intros el Hel.
    rewrite Forall_forall in IH. specialize (IH el).
    eapply Forall_impl; [apply IH; by eapply (subseteq_take 5)|].
    intros pt [suffix ->]. exists ("[]" +:+ suffix).
    by rewrite string_app_assoc.
  - rewrite walk_json_object. constructor; [apply Hroot|].
    apply Forall_flat_map. eapply Forall_impl; [exact IH|].
    intros [k v] Hkv. cbn [fst snd] in *.
    destruct (child_path_app base k) as [mid Hmid].
    eapply Forall_impl; [apply Hkv|].
    intros pt [suffix ->]. exists (mid +:+ suffix).
    by rewrite Hmid, string_app_assoc.
Qed.

Lemma length_flat_map_sum {A B} (f : A → list B) (g : A → nat) l :
  Forall (λ x, length (f x) = g x) l →
  length (flat_map f l) = foldr (λ x n, (g x + n)%nat) O l.
Proof.
  induction 1 as [|x l Hx _ IH]; cbn; [done|].
  rewrite length_app. lia.
Qed.

(** X3. When no sequence of the document has more than five elements,
    sampling loses nothing: the walker emits exactly one pair per node
    of the document. *)
Theorem walk_json_visits_every_node (obj : JsonValue) (base : string) :
  small_arrays obj = true →
  length (walk_json obj base) = nodes obj.
Proof.
  revert base.
  induction obj as [ | b | n | x | s | elems IH | items IH ]
    using JsonValue_nested_ind; intros base Hsmall; try done.
  - cbn [small_arrays] in Hsmall.
    apply andb_prop in Hsmall as [Hlen Hall].
    apply bool_decide_eq_true in Hlen.
    rewrite walk_json_array, take_ge by done. cbn [length nodes]. f_equal.
    apply (length_flat_map_sum _ nodes).
    rewrite forallb_forall in Hall. rewrite Forall_forall in IH |- *.
    intros el Hel. apply IH; [done|]. apply Hall. by apply list_elem_of_In.
  - cbn [small_arrays] in Hsmall. rewrite forallb_forall in Hsmall.
    rewrite walk_json_object. cbn [length nodes]. f_equal.
    apply (length_flat_map_sum _ (λ kv, nodes kv.2)).
    rewrite Forall_forall in IH |- *.
    intros kv Hkv. apply IH; [done|]. apply Hsmall. by apply list_elem_of_In.
Qed.

Lemma walk_json_visits_every_node_witness :
  small_arrays doc_tags = true
  ∧ length (walk_json doc_tags "$") = nodes doc_tags.
Proof.
  split; [reflexivity|].
  apply (walk_json_visits_every_node doc_tags "$"). reflexivity.
Defined.

(** A sequence with more than five elements does lose entries. *)
Example walk_json_samples_long_arrays :
  length (walk_json (doc_items (one_to_five ++ six_to_ten)) "$") = 7%nat
  ∧ nodes (doc_items (one_to_five ++ six_to_ten)) = 12%nat.
Proof. done. Qed.

(** ** The per-file schema holds exactly the walked pairs *)

(** X4. The dictionary that [analyze_files] builds from the pairs of one
    walk has a key for exactly the paths that occur in the pairs, each
    once, and the set under a path holds exactly the tags paired with
    that path. *)
Theorem collect_types_exact (pairs : list (string * string)) (k : string) :
  NoDup (collect_types pairs).*1
  ∧ match dict_get k (collect_types pairs) with
    | Some s =>
        k ∈ pairs.*1
        ∧ s = list_to_set (filter (λ pt, pt.1 = k) pairs).*2
    | None => k ∉ pairs.*1
    end.
Proof.
  split; [apply collect_types_keys_NoDup|].
  destruct (dict_get k (collect_types pairs)) as [s|] eqn:Hs.
  - apply collect_types_Some in Hs as [Hk Hmem]. split; [done|].
    apply set_eq. intros x. rewrite Hmem, elem_of_list_to_set.
    rewrite list_elem_of_fmap. split.
    + intros Hin. exists (k, x). split; [done|].
      by apply list_elem_of_filter.
    + intros ([k' x'] & -> & [Hk' Hin]%list_elem_of_filter).
      cbn in *. by subst.
  - by apply collect_types_None.
Qed.

(** [analyze_files] returns one schema per input file, in the order of
    the input, whether or not the files parse. *)
Theorem analyze_files_one_schema_per_file
    (load : string → option JsonValue) (corpus : list string) :
  path <$> analyze_files load corpus = corpus
  ∧ length (analyze_files load corpus) = length corpus.
Proof.
  split; [apply analyze_files_paths|].
  by rewrite analyze_files_fmap, length_fmap.
Qed.

(** ** What the merged schema holds, exactly *)

Lemma occurs_key schemas k f :
  (∃ ts, occurs schemas k f ts)
  ↔ ∃ s, s ∈ schemas ∧ path s = f ∧ k ∈ (path_types s).*1.
Proof.
  unfold occurs. split.
  - intros (ts & s & Hs & Hf & Hin). exists s. split_and!; [done..|].
    apply list_elem_of_fmap. by exists (k, ts).
  - intros (s & Hs & Hf & ([k' ts] & -> & Hin)%list_elem_of_fmap).
    exists ts, s. done.
Qed.

Lemma merge_acc_get_Some schemas k r :
  dict_get k (foldl merge_file [] schemas) = Some r →
  (∀ x, x ∈ acc_types r
        ↔ ∃ s ts, s ∈ schemas ∧ (k, ts) ∈ path_types s ∧ x ∈ ts)
  ∧ (∀ f, f ∈ acc_files r
          ↔ ∃ s, s ∈ schemas ∧ path s = f ∧ k ∈ (path_types s).*1).
Proof.
  intros Hr. pose proof (describes_merge k schemas) as Hd.
  rewrite Hr in Hd. destruct Hd as (_ & Hty & Hfi). split.
  - intros x. rewrite Hty. unfold occurs. split.
    + intros (f & ts & (s & Hs & _ & Hin) & Hx). by exists s, ts.
    + intros (s & ts & Hs & Hin & Hx). exists (path s), ts.
      split; [by exists s|done].
  - intros f. by rewrite Hfi, occurs_key.
Qed.

Lemma merge_acc_get_None schemas k :
  dict_get k (foldl merge_file [] schemas) = None →
  ∀ s, s ∈ schemas → k ∉ (path_types s).*1.
Proof.
  intros Hr s Hs ([k' ts] & -> & Hin)%list_elem_of_fmap. cbn [fst] in Hr.
  pose proof (describes_merge k' schemas) as Hd.
  rewrite Hr in Hd. apply (Hd (path s) ts). by exists s.
Qed.

Lemma merge_schemas_key schemas k :
  k ∈ (merge_schemas schemas).*1
  ↔ ∃ s, s ∈ schemas ∧ k ∈ (path_types s).*1.
Proof.
  rewrite merge_schemas_keys, <- dict_get_is_Some. split.
  - intros [r Hr].
    pose proof (describes_merge k schemas) as Hd.
    rewrite Hr in Hd. destruct Hd as (Hex & _ & _).
    destruct Hex as (f & ts & Hocc).
    destruct (proj1 (occurs_key schemas k f)) as (s & Hs & _ & Hk); eauto.
  - intros (s & Hs & Hk).
    destruct (dict_get k (foldl merge_file [] schemas)) eqn:Hr; [done|].
    by destruct (merge_acc_get_None _ _ Hr s Hs).
Qed.


(** X6. [total_paths] is the number of distinct paths listed by the
    files of the corpus. *)
Theorem total_paths_counts_distinct_paths (schemas : list FileSchema) :
  total_paths (summarize_schema (merge_schemas schemas))
  = size (list_to_set (schemas ≫= λ s, (path_types s).*1) : gset string).
Proof.
  cbn [summarize_schema total_paths].
  rewrite <- (length_fmap fst).
  rewrite <- (size_list_to_set (C:=gset string)) by apply merge_schemas_NoDup.
  f_equal. apply set_eq. intros k.
  rewrite !elem_of_list_to_set, merge_schemas_key, list_elem_of_bind.
  naive_solver.
Qed.

Lemma merge_acc_files_subset schemas k r :
  dict_get k (foldl merge_file [] schemas) = Some r →
  acc_files r ⊆ list_to_set (path <$> schemas).
Proof.
  intros Hr f Hf. apply (merge_acc_get_Some _ _ _ Hr) in Hf.
  destruct Hf as (s & Hs & <- & _).
  apply elem_of_list_to_set. by apply list_elem_of_fmap_2.
Qed.

(** X7. Under every path, [files] and [missing_in_files] split the files
    of the corpus: no file is in both, every file of the corpus is in
    one of them, and the two lengths add up to the number of distinct
    files. *)
Theorem files_and_missing_split_corpus (schemas : list FileSchema)
    (k : string) (rec : PathRecord) :
  (k, rec) ∈ merge_schemas schemas →
  files rec ++ missing_in_files rec ≡ₚ sorted (list_to_set (path <$> schemas))
  ∧ NoDup (files rec ++ missing_in_files rec)
  ∧ (length (files rec) + length (missing_in_files rec))%nat
    = size (list_to_set (path <$> schemas) : gset string).
Proof.
  intros (r & Hr & ->)%merge_schemas_elem_finalize.
  apply merge_acc_files_subset in Hr. cbn [finalize files missing_in_files].
  rewrite list_to_set_sorted.
  set (all := list_to_set (path <$> schemas) : gset string) in *.
  assert (sorted (acc_files r) ++ sorted (all ∖ acc_files r) ≡ₚ sorted all)
    as Hperm.
  { unfold sorted. rewrite !merge_sort_Permutation.
    rewrite <- elements_disj_union by set_solver.
    assert (acc_files r ∪ all ∖ acc_files r = all) as ->; [|done].
    apply set_eq. intros f. rewrite elem_of_union, elem_of_difference.
    destruct (decide (f ∈ acc_files r)); naive_solver. }
  split_and!.
  - exact Hperm.
  - rewrite Hperm. apply sorted_NoDup.
  - rewrite <- length_app, Hperm. unfold sorted.
    by rewrite merge_sort_Permutation.
Qed.

Lemma files_and_missing_split_corpus_witness :
  (length ["A.json"; "B.json"] + length ["C.json"; "bad.json"])%nat
  = size (list_to_set (path <$> demo_schemas) : gset string).
Proof.
  refine (proj2 (proj2 (files_and_missing_split_corpus demo_schemas "$.x.y"
    {| types := ["number"; "string"];
       files := ["A.json"; "B.json"];
       missing_in_files := ["C.json"; "bad.json"] |} _))).
  apply merge_schemas_elem. vm_compute. reflexivity.
Defined.

(** ** The root path of an analyzed corpus *)

Lemma _json_type_not_invalid obj : _json_type obj ≠ "invalid_json".
Proof. rewrite _json_type_cases. by destruct obj. Qed.

Lemma file_schema_root load p :
  ∃ ts, ("$", ts) ∈ path_types (file_schema load p)
        ∧ match load p with
          | Some obj => _json_type obj ∈ ts
          | None => "invalid_json" ∈ ts
          end.
Proof.
  unfold file_schema. destruct (load p) as [obj|]; cbn.
  - apply collect_types_elem. rewrite walk_json_cons. apply list_elem_of_here.
  - exists {["invalid_json"]}. split; [apply list_elem_of_here|].
    by apply elem_of_singleton.
Qed.

Lemma length_two_distinct {A} (x y : A) (l : list A) :
  x ∈ l → y ∈ l → x ≠ y → (1 < length l)%nat.
Proof.
  intros Hx Hy Hxy. destruct l as [|a [|b l]]; cbn; [|exfalso|lia].
  - by apply elem_of_nil in Hx.
  - apply list_elem_of_singleton in Hx, Hy. congruence.
Qed.

(** X8. In the merged schema of an analyzed corpus that is not empty, the
    root path [$] has a record, every file of the corpus is among its
    [files], and its [missing_in_files] is empty: [$] is never counted
    as missing. *)
Theorem root_path_present_in_every_file
    (load : string → option JsonValue) (corpus : list string) :
  corpus ≠ [] →
  ∃ rec, dict_get "$" (merge_schemas (analyze_files load corpus)) = Some rec
         ∧ files rec = sorted (list_to_set corpus)
         ∧ missing_in_files rec = []
         ∧ "$" ∉ missing_paths (merge_schemas (analyze_files load corpus)).
Proof.
  intros Hne.
  assert (∀ f, f ∈ corpus →
    ∃ s, s ∈ analyze_files load corpus ∧ path s = f
         ∧ "$" ∈ (path_types s).*1) as Hroot.
  { intros f Hf. exists (file_schema load f). split_and!.
    - rewrite analyze_files_fmap. by apply list_elem_of_fmap_2.
    - apply file_schema_path.
    - destruct (file_schema_root load f) as (ts & Hts & _).
      apply list_elem_of_fmap. by exists ("$", ts). }
  destruct (dict_get "$" (foldl merge_file [] (analyze_files load corpus)))
    as [r|] eqn:Hr.
  2:{ destruct corpus as [|f corpus]; [done|].
      destruct (Hroot f) as (s & Hs & _ & Hk); [left|].
      by destruct (merge_acc_get_None _ _ Hr s Hs). }
  assert (acc_files r = list_to_set corpus) as Hfiles.
  { apply set_eq. intros f.
    rewrite (proj2 (merge_acc_get_Some _ _ _ Hr) f), elem_of_list_to_set.
    split; [|apply Hroot].
    intros (s & Hs & <- & _).
    rewrite <- (analyze_files_paths load corpus).
    by apply list_elem_of_fmap_2. }
  set (rec := finalize (list_to_set (path <$> analyze_files load corpus)) r).
  assert (dict_get "$" (merge_schemas (analyze_files load corpus)) = Some rec)
    as Hget by (by rewrite merge_schemas_get, Hr).
  assert (missing_in_files rec = []) as Hmissing.
  { subst rec. cbn. rewrite list_to_set_sorted, Hfiles, analyze_files_paths.
    apply sorted_nil. apply set_eq. intros f.
    rewrite elem_of_difference. split; [tauto|by intros ?%elem_of_empty]. }
  exists rec. split_and!; [done|by subst rec; cbn; rewrite Hfiles|done|].
  intros ([k rec'] & Hk & [Hrec' Hin]%list_elem_of_filter)%list_elem_of_fmap.
  cbn [fst snd] in Hk, Hrec'. subst k. apply merge_schemas_elem in Hin.
  rewrite Hget in Hin. injection Hin as <-. done.
Qed.

Lemma root_path_present_in_every_file_witness :
  demo_files ≠ []
  ∧ ∃ rec, dict_get "$" (merge_schemas (analyze_files demo_load demo_files))
             = Some rec
           ∧ files rec = sorted (list_to_set demo_files)
           ∧ missing_in_files rec = []
           ∧ "$" ∉ missing_paths (merge_schemas (analyze_files demo_load demo_files)).
Proof.
  assert (demo_files ≠ []) as Hne by (vm_compute; discriminate).
  split; [exact Hne|].
  exact (root_path_present_in_every_file demo_load demo_files Hne).
Defined.

(** X9. When a corpus holds a file that fails to parse and a file that
    parses, the root path [$] is reported as a type conflict: its types
    hold [invalid_json] next to the tag of the parsed document. *)
Theorem invalid_file_makes_root_conflict
    (load : string → option JsonValue) (corpus : list string)
    (p q : string) (obj : JsonValue) :
  p ∈ corpus → load p = None →
  q ∈ corpus → load q = Some obj →
  "$" ∈ type_conflict_paths (merge_schemas (analyze_files load corpus))
  ∧ ∃ rec, dict_get "$" (merge_schemas (analyze_files load corpus)) = Some rec
           ∧ "invalid_json" ∈ types rec ∧ _json_type obj ∈ types rec.
Proof.
  intros Hp Hbad Hq Hok.
  destruct (file_schema_root load p) as (tsp & Htsp & Hinv).
  destruct (file_schema_root load q) as (tsq & Htsq & Htag).
  rewrite Hbad in Hinv. rewrite Hok in Htag.
  assert (∀ f, f ∈ corpus → file_schema load f ∈ analyze_files load corpus)
    as Hin.
  { intros f Hf. rewrite analyze_files_fmap. by apply list_elem_of_fmap_2. }
  destruct (merge_schemas_covers _ _ _ _ _ (Hin p Hp) Htsp Hinv)
    as (rec & Hrec & Hi & _).
  destruct (merge_schemas_covers _ _ _ _ _ (Hin q Hq) Htsq Htag)
    as (rec' & Hrec' & Ht & _).
  assert (rec' = rec) as -> by congruence.
  split; [|by exists rec].
  apply list_elem_of_fmap. exists ("$", rec). split; [done|].
  apply list_elem_of_filter. split; [|by apply dict_get_Some_elem].
  cbn [snd]. eapply length_two_distinct; [exact Hi|exact Ht|].
  intros Heq. by apply (_json_type_not_invalid obj).
Qed.

Lemma invalid_file_makes_root_conflict_witness :
  "$" ∈ type_conflict_paths (merge_schemas (analyze_files demo_load demo_files)).
Proof.
  refine (proj1 (invalid_file_makes_root_conflict demo_load demo_files
    "bad.json" "A.json" (JObject [("x", JObject [("y", JString "s")])])
    _ _ _ _)).
  - unfold demo_files. do 3 apply list_elem_of_further. apply list_elem_of_here.
  - reflexivity.
  - apply list_elem_of_here.
  - reflexivity.
Defined.

(** ** Repeated files, single files, growing corpora *)

(** X10. The merged schema depends only on which per-file schemas are
    given, not on how often: two lists with the same members give the
    same record under every path, so listing a file twice changes
    nothing. *)
Theorem merge_schemas_ignores_repetition (schemas schemas' : list FileSchema) :
  (∀ s, s ∈ schemas ↔ s ∈ schemas') →
  ∀ k, dict_get k (merge_schemas schemas) = dict_get k (merge_schemas schemas').
Proof.
  intros Hsame k. rewrite !merge_schemas_get.
  assert (list_to_set (path <$> schemas) =@{gset string}
          list_to_set (path <$> schemas')) as ->.
  { apply set_eq. intros f. rewrite !elem_of_list_to_set, !list_elem_of_fmap.
    by setoid_rewrite Hsame. }
  f_equal. eapply describes_inj; [apply describes_merge|].
  eapply describes_ext; [|apply describes_merge].
  intros f ts. unfold occurs. by setoid_rewrite Hsame.
Qed.

Lemma merge_schemas_ignores_repetition_witness :
  dict_get "x.y" (merge_schemas [schema_A; schema_B; schema_A])
  = dict_get "x.y" (merge_schemas [schema_B; schema_A]).
Proof.
  apply (merge_schemas_ignores_repetition
           [schema_A; schema_B; schema_A] [schema_B; schema_A]).
  intros s. rewrite !elem_of_cons, elem_of_nil. tauto.
Defined.

Lemma filter_all {A} (P : A → Prop) `{∀ x, Decision (P x)} (l : list A) :
  Forall P l → filter P l = l.
Proof.
  induction 1 as [|x l Hx _ IH]; [done|].
  rewrite filter_cons_True by done. by rewrite IH.
Qed.

Lemma filter_none {A} (P : A → Prop) `{∀ x, Decision (P x)} (l : list A) :
  Forall (λ x, ¬ P x) l → filter P l = [].
Proof.
  induction 1 as [|x l Hx _ IH]; [done|].
  by rewrite filter_cons_False.
Qed.

Lemma merge_single_file_record s k rec :
  (k, rec) ∈ merge_schemas [s] →
  files rec = [path s] ∧ missing_in_files rec = [].
Proof.
  intros (r & Hr & ->)%merge_schemas_elem_finalize.
  assert (acc_files r = {[path s]}) as Hfiles.
  { apply set_eq. intros f.
    rewrite (proj2 (merge_acc_get_Some _ _ _ Hr) f), elem_of_singleton.
    split.
    - by intros (s' & ->%list_elem_of_singleton & <- & _).
    - intros ->. exists s. split_and!; [apply list_elem_of_here|done|].
      apply dec_stable. intros Hk.
      pose proof (describes_merge k [s]) as Hd. rewrite Hr in Hd.
      destruct Hd as ((f & ts & s' & ->%list_elem_of_singleton & _ & Hin) & _).
      apply Hk, list_elem_of_fmap. by exists (k, ts). }
  cbn. rewrite Hfiles, sorted_singleton. split; [done|].
  apply sorted_nil. set_solver.
Qed.

(** X11. In the merged schema of a corpus of a single file, every record
    has that file as its only file and nothing missing: every path is
    counted as unique and none as missing. *)
Theorem single_file_corpus_all_unique (s : FileSchema) :
  Forall (λ kv, files kv.2 = [path s] ∧ missing_in_files kv.2 = [])
         (merge_schemas [s])
  ∧ unique_paths (merge_schemas [s]) = (merge_schemas [s]).*1
  ∧ missing_paths (merge_schemas [s]) = [].
Proof.
  assert (Forall (λ kv, files kv.2 = [path s] ∧ missing_in_files kv.2 = [])
                 (merge_schemas [s])) as Hall.
  { apply Forall_forall. intros [k rec] Hin.
    by apply merge_single_file_record in Hin. }
  split_and!; [exact Hall| |].
  - unfold unique_paths. f_equal. apply filter_all.
    eapply Forall_impl; [exact Hall|]. by intros kv [-> _].
  - unfold missing_paths. rewrite filter_none; [done|].
    eapply Forall_impl; [exact Hall|]. intros kv [_ Hm] Hne. by apply Hne.
Qed.

(** X12. In a corpus with at least two different files, a path counted as
    unique is also counted as missing. *)
Theorem unique_paths_are_missing (schemas : list FileSchema)
    (s1 s2 : FileSchema) (k : string) :
  s1 ∈ schemas → s2 ∈ schemas → path s1 ≠ path s2 →
  k ∈ unique_paths (merge_schemas schemas) →
  k ∈ missing_paths (merge_schemas schemas).
Proof.
  intros Hs1 Hs2 Hne.
  intros ([k' rec] & Hk & [Hlen Hin]%list_elem_of_filter)%list_elem_of_fmap.
  cbn [fst snd] in Hk, Hlen. subst k'.
  apply list_elem_of_fmap. exists (k, rec). split; [done|].
  apply list_elem_of_filter. split; [|done]. cbn [snd].
  apply merge_schemas_elem_finalize in Hin as (r & _ & ->).
  cbn [finalize files missing_in_files] in *.
  assert (∃ f, f ∈ path <$> schemas ∧ f ∉ sorted (acc_files r))
    as (f & Hf & Hnot).
  { destruct (sorted (acc_files r)) as [|f0 [|??]]; try done.
    destruct (decide (path s1 = f0)) as [<-|Hf0].
    - exists (path s2). split; [by apply list_elem_of_fmap_2|].
      rewrite list_elem_of_singleton. congruence.
    - exists (path s1). split; [by apply list_elem_of_fmap_2|].
      by rewrite list_elem_of_singleton. }
  intros Hnil.
  assert (f ∈ sorted (list_to_set (path <$> schemas)
                      ∖ list_to_set (sorted (acc_files r)))) as Hmiss.
  { by rewrite elem_of_sorted, elem_of_difference, !elem_of_list_to_set. }
  rewrite Hnil in Hmiss. by apply elem_of_nil in Hmiss.
Qed.

Lemma unique_paths_are_missing_witness :
  "z" ∈ unique_paths (merge_schemas [schema_A; schema_B; schema_C])
  ∧ "z" ∈ missing_paths (merge_schemas [schema_A; schema_B; schema_C]).
Proof.
  assert ("z" ∈ unique_paths (merge_schemas [schema_A; schema_B; schema_C]))
    as Hu.
  { vm_compute. apply list_elem_of_here. }
  split; [exact Hu|].
  apply (unique_paths_are_missing _ schema_A schema_B "z").
  - apply list_elem_of_here.
  - apply list_elem_of_further, list_elem_of_here.
  - vm_compute. discriminate.
  - exact Hu.
Defined.

(** X13. Each example list of the summary holds the first paths of its
    kind, at most 20 of them, in the order of the merged schema, and no
    count exceeds [total_paths]. *)
Theorem summary_examples_bounded (merged : dict PathRecord) :
  let sm := summarize_schema merged in
  (paths_with_type_conflict sm `sublist_of` merged.*1
   ∧ length (paths_with_type_conflict sm)
     = (20 `min` paths_with_type_conflict_count sm)%nat
   ∧ (paths_with_type_conflict_count sm ≤ total_paths sm)%nat)
  ∧ (paths_missing_examples sm `sublist_of` merged.*1
     ∧ length (paths_missing_examples sm)
       = (20 `min` paths_missing_count sm)%nat
     ∧ (paths_missing_count sm ≤ total_paths sm)%nat)
  ∧ (unique_paths_examples sm `sublist_of` merged.*1
     ∧ length (unique_paths_examples sm)
       = (20 `min` unique_paths_count sm)%nat
     ∧ (unique_paths_count sm ≤ total_paths sm)%nat).
Proof.
  assert (∀ (P : string * PathRecord → Prop) `{∀ x, Decision (P x)},
    take 20 (filter P merged).*1 `sublist_of` merged.*1
    ∧ length (take 20 (filter P merged).*1)
      = (20 `min` length (filter P merged).*1)%nat
    ∧ (length (filter P merged).*1 ≤ length merged)%nat) as H.
  { intros P HP. split_and!.
    - etrans; [apply sublist_take|]. apply fmap_sublist, sublist_filter.
    - apply length_take.
    - rewrite length_fmap. apply length_filter. }
  cbn. unfold type_conflict_paths, missing_paths, unique_paths.
  split_and!; apply H.
Qed.

(** X14. Adding a file to a corpus never removes anything from the
    merged schema: every path keeps a record, whose [types] and [files]
    contain the former ones. *)
Theorem merge_schemas_grows (schemas : list FileSchema) (s : FileSchema)
    (k : string) (rec : PathRecord) :
  (k, rec) ∈ merge_schemas schemas →
  ∃ rec', dict_get k (merge_schemas (schemas ++ [s])) = Some rec'
          ∧ types rec ⊆ types rec' ∧ files rec ⊆ files rec'.
Proof.
  intros (r & Hr & ->)%merge_schemas_elem_finalize.
  rewrite merge_schemas_get.
  destruct (merge_acc_get_Some _ _ _ Hr) as [Hty Hfi].
  destruct (dict_get k (foldl merge_file [] (schemas ++ [s])))
    as [r'|] eqn:Hr'.
  - destruct (merge_acc_get_Some _ _ _ Hr') as [Hty' Hfi'].
    eexists. split; [done|]. cbn. split.
    + intros x. rewrite !elem_of_sorted, Hty, Hty'.
      intros (s0 & ts & Hs0 & Hin & Hx). exists s0, ts.
      split_and!; [|done..]. apply elem_of_app. by left.
    + intros f. rewrite !elem_of_sorted, Hfi, Hfi'.
      intros (s0 & Hs0 & Hf & Hk). exists s0.
      split_and!; [|done..]. apply elem_of_app. by left.
  - exfalso. pose proof (describes_merge k schemas) as Hd. rewrite Hr in Hd.
    destruct Hd as ((f & ts & s0 & Hs0 & _ & Hin) & _).
    apply (merge_acc_get_None _ _ Hr' s0).
    + apply elem_of_app. by left.
    + apply list_elem_of_fmap. by exists (k, ts).
Qed.

Lemma merge_schemas_grows_witness :
  ∃ rec', dict_get "x.y" (merge_schemas ([schema_A] ++ [schema_B])) = Some rec'
          ∧ ["string"] ⊆ types rec' ∧ ["A.json"] ⊆ files rec'.
Proof.
  apply (merge_schemas_grows [schema_A] schema_B "x.y"
           {| types := ["string"]; files := ["A.json"];
              missing_in_files := [] |}).
  apply merge_schemas_elem. vm_compute. reflexivity.
Defined.

(** ** The report of a folder *)

(** X15. In the report of a folder, [files] lists the analyzed files in
    the order given and [files_count] counts them; under every path of
    [merged_schema], a file is in [files] or in [missing_in_files]
    exactly when it is one of the files of the report. *)
Theorem process_folder_report_consistent
    (load : string → option JsonValue) (folder_name : string)
    (corpus : list string) :
  let rep := process_folder load folder_name corpus in
  report_files rep = corpus
  ∧ files_count rep = length corpus
  ∧ Forall (λ kv, ∀ f, f ∈ files kv.2 ++ missing_in_files kv.2
                       ↔ f ∈ report_files rep)
           (merged_schema rep).
Proof.
  cbn. split_and!.
  - apply analyze_files_paths.
  - by rewrite analyze_files_fmap, length_fmap.
  - apply Forall_forall. intros [k rec] Hin f. cbn [snd].
    apply merge_schemas_elem_finalize in Hin as (r & Hr & ->).
    apply merge_acc_files_subset in Hr.
    cbn [finalize files missing_in_files].
    rewrite elem_of_app, !elem_of_sorted, list_to_set_sorted.
    rewrite elem_of_difference, elem_of_list_to_set.
    split; [|destruct (decide (f ∈ acc_files r)); tauto].
    intros [Hf|[Hf _]]; [|done].
    apply (elem_of_list_to_set (C:=gset string)). by apply Hr.
Qed.

(** ** Unique paths of a report *)

Section extract_unique_paths_facts.
Variable strip : string → string.
Variable extract_snippet : string → string → option string.

Lemma unique_entries_spec (snippets : bool) (merged : dict PathRecord) :
  entry_path <$> unique_entries strip extract_snippet snippets merged
  = unique_paths merged
  ∧ Forall (λ e, ∃ rec, (entry_path e, rec) ∈ merged
                        ∧ files rec = [entry_file e]
                        ∧ entry_types e = types rec)
           (unique_entries strip extract_snippet snippets merged).
Proof.
  unfold unique_paths, unique_entries.
  induction merged as [|[k rec] merged [IHp IHf]]; [by split|].
  cbn [flat_map]. rewrite fmap_app, filter_cons. cbn [fst snd].
  assert (∀ e : UniqueEntry,
    (∃ rec', (entry_path e, rec') ∈ merged
             ∧ files rec' = [entry_file e] ∧ entry_types e = types rec') →
    ∃ rec', (entry_path e, rec') ∈ (k, rec) :: merged
            ∧ files rec' = [entry_file e] ∧ entry_types e = types rec')
    as Hweaken.
  { intros e (rec' & Hin & Hrest). exists rec'. split; [by right|done]. }
  destruct (files rec) as [|f [|f' fs]] eqn:Hfiles.
  - rewrite decide_False by (cbn; lia). cbn. split; [done|].
    eapply Forall_impl; [exact IHf|exact Hweaken].
  - rewrite decide_True by done. cbn. split; [by f_equal|].
    constructor.
    + exists rec. cbn. split_and!; [left|done|done].
    + eapply Forall_impl; [exact IHf|exact Hweaken].
  - rewrite decide_False by (cbn; lia). cbn. split; [done|].
    eapply Forall_impl; [exact IHf|exact Hweaken].
Qed.

(** X16. The entries [process_report] extracts from a report are, in
    order, exactly the paths the summary counts as unique (all of them,
    not only the first 20); each entry carries the types of the path
    and the single file of its record. *)
Theorem unique_entries_match_unique_paths (snippets : bool)
    (merged : dict PathRecord) :
  entry_path <$> unique_entries strip extract_snippet snippets merged
  = unique_paths merged
  ∧ Forall (λ e, ∃ rec, (entry_path e, rec) ∈ merged
                        ∧ files rec = [entry_file e]
                        ∧ entry_types e = types rec)
           (unique_entries strip extract_snippet snippets merged).
Proof. apply unique_entries_spec. Qed.

(** X17. For a report written from a merge, the file of a unique entry is
    the only file that lists the path of the entry. *)
Theorem unique_entry_file_is_only_file (snippets : bool)
    (schemas : list FileSchema) (e : UniqueEntry) (s : FileSchema) :
  e ∈ unique_entries strip extract_snippet snippets (merge_schemas schemas) →
  s ∈ schemas → entry_path e ∈ (path_types s).*1 →
  path s = entry_file e.
Proof.
  intros He Hs Hk.
  pose proof (proj2 (unique_entries_spec snippets (merge_schemas schemas)))
    as Hall.
  rewrite Forall_forall in Hall.
  destruct (Hall e He) as (rec & Hin & Hfiles & _).
  apply merge_schemas_elem_finalize in Hin as (r & Hr & ->).
  assert (path s ∈ acc_files r) as Hf.
  { apply (merge_acc_get_Some _ _ _ Hr). by exists s. }
  cbn in Hfiles. rewrite <- elem_of_sorted, Hfiles in Hf.
  by apply list_elem_of_singleton in Hf.
Qed.
End extract_unique_paths_facts.

Lemma unique_entry_file_is_only_file_witness :
  path schema_C = "C.json".
Proof.
  apply (unique_entry_file_is_only_file id (λ _ _, None) false
           [schema_A; schema_B; schema_C]
           {| entry_path := "z"; entry_types := ["boolean"];
              entry_file := "C.json"; entry_snippet := None |}
           schema_C).
  - vm_compute. apply list_elem_of_here.
  - do 2 apply list_elem_of_further. apply list_elem_of_here.
  - vm_compute. do 1 apply list_elem_of_further. apply list_elem_of_here.
Defined.

(** ** The key name of a path *)

Lemma split_dot_nonempty s : split_dot s ≠ [].
Proof.
  destruct s as [|c s]; [done|]. cbn.
  destruct (Ascii.eqb c "."); [done|]. by destruct (split_dot s).
Qed.

Lemma split_dot_app (a b : string) :
  split_dot (a +:+ "." +:+ b) = split_dot a ++ split_dot b.
Proof.
  induction a as [|c a IH]; [done|].
  change (String c a +:+ "." +:+ b) with (String c (a +:+ "." +:+ b)).
  cbn [split_dot]. rewrite IH.
  destruct (Ascii.eqb c "."); [done|].
  pose proof (split_dot_nonempty a). by destruct (split_dot a).
Qed.

Lemma split_dot_no_dot s :
  "."%char ∉ String.list_ascii_of_string s → split_dot s = [s].
Proof.
  induction s as [|c s IH]; [done|]. cbn.
  rewrite not_elem_of_cons. intros [Hc Hs].
  destruct (Ascii.eqb_spec c "."); [congruence|]. by rewrite IH.
Qed.

Lemma split_dot_parts_no_dot s :
  Forall (λ part, "."%char ∉ String.list_ascii_of_string part) (split_dot s).
Proof.
  induction s as [|c s IH]; cbn.
  - constructor; [apply not_elem_of_nil|constructor].
  - destruct (Ascii.eqb_spec c ".") as [->|Hc].
    + constructor; [apply not_elem_of_nil|done].
    + destruct (split_dot s) as [|part parts].
      * constructor; [|constructor]. cbn. rewrite not_elem_of_cons.
        split; [congruence|apply not_elem_of_nil].
      * apply Forall_cons in IH as [Hpart Hparts].
        constructor; [|done]. cbn. rewrite not_elem_of_cons.
        split; [congruence|done].
Qed.

Lemma remove_brackets_chars s : ∀ c,
  c ∈ String.list_ascii_of_string (remove_brackets s) → c ∈ String.list_ascii_of_string s.
Proof.
  assert (∀ n s, (String.length s ≤ n)%nat → ∀ c,
    c ∈ String.list_ascii_of_string (remove_brackets s)
    → c ∈ String.list_ascii_of_string s) as H.
  { intros n. induction n as [|n IH]; intros [|a [|b t]] Hlen c; cbn in *;
      try done; try lia.
    destruct (Ascii.eqb a "[" && Ascii.eqb b "]").
    - intros Hc. do 2 right. apply IH; [lia|done].
    - cbn. rewrite !elem_of_cons. intros [->|Hc]; [by left|].
      right. apply elem_of_cons. apply (IH (String b t)); [cbn; lia|done]. }
  intros c. by apply (H (String.length s)).
Qed.

(** X18. The key name [get_key_name_from_path] derives from a path holds
    no dot.  When stripping leaves the path [base.k] unchanged and [k]
    holds no dot, the key name is [k] with every [[]] removed. *)
Theorem get_key_name_is_last_key (strip : string → string) (base k : string) :
  strip (base +:+ "." +:+ k) = base +:+ "." +:+ k →
  "."%char ∉ String.list_ascii_of_string k →
  get_key_name_from_path strip (base +:+ "." +:+ k) = remove_brackets k
  ∧ ∀ path,
      "."%char ∉ String.list_ascii_of_string (get_key_name_from_path strip path).
Proof.
  intros Hstrip Hk. split.
  - unfold get_key_name_from_path.
    rewrite Hstrip, split_dot_app, (split_dot_no_dot k Hk).
    by rewrite last_snoc.
  - intros path. unfold get_key_name_from_path.
    destruct (last (split_dot (strip path))) as [part|] eqn:Hlast.
    + intros Hdot%remove_brackets_chars.
      pose proof (split_dot_parts_no_dot (strip path)) as Hparts.
      rewrite Forall_forall in Hparts.
      by apply (Hparts part); [apply last_Some_elem_of|].
    + apply last_None in Hlast. by destruct (split_dot_nonempty (strip path)).
Qed.

Lemma get_key_name_is_last_key_witness :
  get_key_name_from_path id ("$.rootElements[].flowElements[]" +:+ "." +:+ "description")
  = "description"
  ∧ get_key_name_from_path id ("$" +:+ "." +:+ "items[]") = "items".
Proof.
  split.
  - refine (proj1 (get_key_name_is_last_key id
      "$.rootElements[].flowElements[]" "description" _ _)).
    + reflexivity.
    + cbn [String.list_ascii_of_string]. rewrite !not_elem_of_cons.
      repeat split; try discriminate. apply not_elem_of_nil.
  - reflexivity.
Defined.

(** ** Finding the files of a folder *)

Example demo_find_examples :
  demo_find JNull None
  = Some ["full/a.json"; "full/a_metadata.json"; "full/sub/b.json"]
  ∧ demo_find JNull (Some ["metadata.json"])
    = Some ["full/a.json"; "full/sub/b.json"]
  ∧ demo_find (JObject []) None = Some []
  ∧ demo_find (JObject [("entries", JArray [JObject [("file", JString "x.json")]])])
              None
    = Some ["x.json"]
  ∧ demo_find (JObject [("entries", JArray [JObject [("path", JString "x.json")]])])
              None
    = None.
Proof. split_and!; vm_compute; reflexivity. Qed.

Lemma elem_of_concat {A} (x : A) (ls : list (list A)) :
  x ∈ concat ls ↔ ∃ l, x ∈ l ∧ l ∈ ls.
Proof.
  induction ls as [|l ls IH]; cbn.
  - rewrite elem_of_nil. split; [done|]. by intros (l & _ & ?%elem_of_nil).
  - rewrite elem_of_app, IH. split.
    + intros [Hx|(l' & Hx & Hl')]; [exists l|exists l']; split; try done.
      * left.
      * by right.
    + intros (l' & Hx & [->|Hl']%elem_of_cons); [by left|right; eauto].
Qed.

Section find_json_files_facts.
Variable to_path : string → string.
Variable exists_ : string → option bool.
Variable os_walk : string → list (string * list string).
Variable joinpath : string → string → string.
Variable lower : string → string.
Variable sorted_paths : list string → list string.
Variable name : string → string.
Variable fnmatch : string → string → bool.

Local Abbreviation find := (find_json_files to_path exists_ os_walk joinpath lower
                          sorted_paths name fnmatch).
Local Abbreviation candidates := (candidate_files to_path exists_ os_walk joinpath
                                lower).

Lemma ignored_false pats p :
  ignored name fnmatch pats p = false
  ↔ ∀ pat, pat ∈ pats → fnmatch (name p) pat = false.
Proof.
  unfold ignored. induction pats as [|pat pats IH]; cbn.
  - split; [by intros _ pat ?%elem_of_nil|done].
  - rewrite orb_false_iff, IH. split.
    + intros [Hpat Hpats] pat' [->|Hin]%elem_of_cons; auto.
    + intros Hall. split; [apply Hall; left|].
      intros pat' Hin. apply Hall. by right.
Qed.

Lemma find_json_files_filter folder index pats :
  find folder index (Some pats)
  = filter (λ p, ignored name fnmatch pats p = false)
      <$> find folder index None.
Proof.
  unfold find_json_files. destruct (candidates folder index) as [files|]; [|done].
  cbn. destruct pats as [|pat pats]; [|done].
  f_equal. symmetry. apply filter_all. by apply Forall_forall.
Qed.

(** X19. Ignore patterns only remove files: with patterns, the result is
    the result without patterns, in the same order, minus the files whose
    name matches one of the patterns; no returned file matches a pattern,
    and an empty list of patterns removes nothing. *)
Theorem find_json_files_ignore_patterns (folder : string) (index : JsonValue)
    (pats : list string) (found : list string) :
  find folder index (Some pats) = Some found →
  ∃ unfiltered,
    find folder index None = Some unfiltered
    ∧ found = filter (λ p, ignored name fnmatch pats p = false) unfiltered
    ∧ Forall (λ p, ∀ pat, pat ∈ pats → fnmatch (name p) pat = false) found
    ∧ find folder index (Some []) = Some unfiltered.
Proof.
  rewrite find_json_files_filter. intros Hfound.
  destruct (find folder index None) as [unfiltered|] eqn:Hnone; [|done].
  injection Hfound as <-. exists unfiltered. split_and!; [done..| |].
  - apply Forall_forall. intros p [Hp _]%list_elem_of_filter.
    by apply ignored_false.
  - rewrite find_json_files_filter, Hnone. cbn. f_equal.
    apply filter_all. by apply Forall_forall.
Qed.

(** X20. An index whose [entries] hold an entry without a string under
    [file] (a missing key, [null], or an entry that is not a dictionary)
    makes [find_json_files] raise: the entry is not skipped. *)
Theorem find_json_files_raises_on_bad_entry (folder : string)
    (items : list (string * JsonValue)) (elems : list JsonValue)
    (e : JsonValue) (ignore_patterns : option (list string)) :
  dict_get "entries" items = Some (JArray elems) →
  e ∈ elems →
  indexed_path to_path e = None →
  find folder (JObject items) ignore_patterns = None.
Proof.
  intros Hentries He Hbad.
  unfold find_json_files, candidate_files, index_entries.
  rewrite Hentries. cbn.
  assert (mapM (indexed_file to_path exists_) elems = None) as ->; [|done].
  apply mapM_None_2, Exists_exists. exists e. split; [done|].
  unfold indexed_file. by rewrite Hbad.
Qed.

(** X21. When an index is given, the folder is not scanned: the result
    does not depend on what the folder holds, and an index without
    entries gives the files [sorted(set([]))]. *)
Theorem find_json_files_index_shadows_folder
    (os_walk' : string → list (string * list string))
    (folder : string) (index : JsonValue)
    (ignore_patterns : option (list string)) :
  index ≠ JNull →
  find folder index ignore_patterns
  = find_json_files to_path exists_ os_walk' joinpath lower sorted_paths
      name fnmatch folder index ignore_patterns.
Proof. intros Hindex. unfold find_json_files. by destruct index. Qed.

Hypothesis sorted_paths_elem : ∀ l p, p ∈ sorted_paths l ↔ p ∈ l.

(** X22. With an index, every file returned is the path of an entry of
    the index and exists. *)
Theorem find_json_files_indexed_exist (folder : string) (index : JsonValue)
    (ignore_patterns : option (list string)) (found : list string) :
  index ≠ JNull →
  find folder index ignore_patterns = Some found →
  ∃ entries es,
    index_entries index = Some entries ∧ py_iter entries = Some es
    ∧ Forall (λ p, exists_ p = Some true
                   ∧ ∃ e, e ∈ es ∧ indexed_path to_path e = Some p) found.
Proof.
  intros Hindex Hfound.
  assert (∃ files, candidates folder index = Some files
                   ∧ found ⊆ sorted_paths files) as (files & Hcand & Hsub).
  { unfold find_json_files in Hfound.
    destruct (candidates folder index) as [files|]; [|done].
    exists files. split; [done|]. cbn in Hfound.
    destruct ignore_patterns as [[|pat pats]|]; injection Hfound as <-;
      try (by intros p Hp).
    intros p Hp. by apply list_elem_of_filter in Hp as [_ Hp]. }
  unfold candidate_files in Hcand.
  assert (∃ entries es found', index_entries index = Some entries
            ∧ py_iter entries = Some es
            ∧ mapM (indexed_file to_path exists_) es = Some found'
            ∧ files = concat found') as (entries & es & found' & He & Hes & Hm & ->).
  { destruct index as [ | | | | | |items]; try done.
    cbn in Hcand.
    destruct (py_iter (default (JArray []) (dict_get "entries" items)))
      as [es|] eqn:Hes; [|done].
    cbn in Hcand.
    destruct (mapM (indexed_file to_path exists_) es) as [found'|] eqn:Hm;
      [|done].
    injection Hcand as <-. by eexists _, es, found'. }
  exists entries, es. split_and!; [done..|].
  apply Forall_forall. intros p Hp. apply Hsub in Hp.
  apply (proj1 (sorted_paths_elem _ _)) in Hp.
  apply elem_of_concat in Hp as (ps & Hp & Hps).
  apply mapM_Some_1 in Hm.
  apply list_elem_of_lookup in Hps as [i Hi].
  destruct (Forall2_lookup_r _ _ _ _ _ Hm Hi) as (e & He' & Hfile).
  unfold indexed_file in Hfile.
  destruct (indexed_path to_path e) as [q|] eqn:Hq; [|done]. cbn in Hfile.
  destruct (exists_ q) as [[|]|] eqn:Hex; cbn in Hfile; try done;
    injection Hfile as <-; [|by apply elem_of_nil in Hp].
  apply list_elem_of_singleton in Hp as ->. split; [done|].
  exists e. split; [|done]. by eapply list_elem_of_lookup_2.
Qed.
(** X23. Without an index, [find_json_files] does not raise and returns
    exactly the files met by the walk of the folder whose name, in lower
    case, ends in [.json] and matches no ignore pattern. *)
Theorem find_json_files_folder_scan (folder : string)
    (ignore_patterns : option (list string)) :
  ∃ found,
    find folder JNull ignore_patterns = Some found
    ∧ ∀ p, p ∈ found
           ↔ (∃ dir fname,
                dir ∈ os_walk folder ∧ fname ∈ dir.2
                ∧ endswith (lower fname) ".json" = true
                ∧ p = joinpath dir.1 fname)
             ∧ ignored name fnmatch (default [] ignore_patterns) p = false.
Proof.
  set (scan := flat_map
     (λ dir, joinpath dir.1
               <$> filter (λ fname, endswith (lower fname) ".json" = true) dir.2)
     (os_walk folder)).
  assert (∀ p, p ∈ scan ↔
    ∃ dir fname, dir ∈ os_walk folder ∧ fname ∈ dir.2
                 ∧ endswith (lower fname) ".json" = true
                 ∧ p = joinpath dir.1 fname) as Hscan.
  { intros p. subst scan. rewrite list_elem_of_In, in_flat_map. split.
    - intros (dir & Hdir%list_elem_of_In & Hp%list_elem_of_In).
      apply list_elem_of_fmap in Hp as (fname & -> & [Hjson Hf]%list_elem_of_filter).
      by exists dir, fname.
    - intros (dir & fname & Hdir & Hf & Hjson & ->). exists dir.
      split; [by apply list_elem_of_In|]. apply list_elem_of_In.
      apply list_elem_of_fmap_2. by apply list_elem_of_filter. }
  unfold find_json_files. cbn. fold scan.
  destruct ignore_patterns as [[|pat pats]|]; eexists; (split; [done|]);
    intros p; cbn [default].
  - rewrite sorted_paths_elem, Hscan. cbn. tauto.
  - rewrite list_elem_of_filter, sorted_paths_elem, Hscan. tauto.
  - rewrite sorted_paths_elem, Hscan. cbn. tauto.
Qed.
End find_json_files_facts.

Lemma demo_sorted_paths_elem l p : p ∈ demo_sorted_paths l ↔ p ∈ l.
Proof.
  unfold demo_sorted_paths. by rewrite elem_of_sorted, elem_of_list_to_set.
Qed.

Lemma find_json_files_ignore_patterns_witness :
  ∃ unfiltered,
    demo_find JNull None = Some unfiltered
    ∧ ["full/a.json"; "full/sub/b.json"]
      = filter (λ p, ignored id endswith ["metadata.json"] p = false) unfiltered
    ∧ Forall (λ p, ∀ pat, pat ∈ ["metadata.json"] → endswith (id p) pat = false)
             ["full/a.json"; "full/sub/b.json"]
    ∧ demo_find JNull (Some []) = Some unfiltered.
Proof.
  apply (find_json_files_ignore_patterns id (λ _, Some true) demo_walk
           demo_joinpath id demo_sorted_paths id endswith "full" JNull
           ["metadata.json"]).
  vm_compute. reflexivity.
Defined.

Lemma find_json_files_raises_on_bad_entry_witness :
  demo_find (JObject [("entries", JArray [JObject [("path", JString "x.json")]])])
            None
  = None.
Proof.
  apply (find_json_files_raises_on_bad_entry id (λ _, Some true) demo_walk
           demo_joinpath id demo_sorted_paths id endswith "full"
           [("entries", JArray [JObject [("path", JString "x.json")]])]
           [JObject [("path", JString "x.json")]]
           (JObject [("path", JString "x.json")]) None).
  - reflexivity.
  - apply list_elem_of_here.
  - reflexivity.
Defined.

Lemma find_json_files_index_shadows_folder_witness :
  demo_find (JObject []) None
  = find_json_files id (λ _, Some true) (λ _, []) demo_joinpath id
      demo_sorted_paths id endswith "full" (JObject []) None.
Proof.
  apply (find_json_files_index_shadows_folder id (λ _, Some true) demo_walk
           demo_joinpath id demo_sorted_paths id endswith (λ _, []) "full"
           (JObject []) None).
  discriminate.
Defined.

Lemma find_json_files_indexed_exist_witness :
  ∃ entries es,
    index_entries
      (JObject [("entries", JArray [JObject [("file", JString "x.json")]])])
    = Some entries
    ∧ py_iter entries = Some es
    ∧ Forall (λ p, Some true = Some true
                   ∧ ∃ e, e ∈ es ∧ indexed_path id e = Some p) ["x.json"].
Proof.
  apply (find_json_files_indexed_exist id (λ _, Some true) demo_walk
           demo_joinpath id demo_sorted_paths id endswith
           demo_sorted_paths_elem "full"
           (JObject [("entries", JArray [JObject [("file", JString "x.json")]])])
           None ["x.json"]).
  - discriminate.
  - vm_compute. reflexivity.
Defined.

Lemma find_json_files_folder_scan_witness :
  ∃ found,
    demo_find JNull (Some ["metadata.json"]) = Some found
    ∧ ∀ p, p ∈ found
           ↔ (∃ dir fname,
                dir ∈ demo_walk "full" ∧ fname ∈ dir.2
                ∧ endswith (id fname) ".json" = true
                ∧ p = demo_joinpath dir.1 fname)
             ∧ ignored id endswith (default [] (Some ["metadata.json"])) p
               = false.
Proof.
  apply (find_json_files_folder_scan id (λ _, Some true) demo_walk
           demo_joinpath id demo_sorted_paths id endswith
           demo_sorted_paths_elem "full" (Some ["metadata.json"])).
Defined.

